(** * Windows disk enumeration and I/O counters (disk/disk_windows.go)

    A shallow embedding of [PartitionsWithContext], [getVolumePaths],
    [split0] and [IOCountersWithContext], together with the properties of
    the enumeration pipeline: warning accumulation, cancellation, release
    of the native volume handle, mount options and the tick conversion.

    Conventions.
    - Go integers are [Z]; a conversion that can wrap is written out.
    - A Go [string] is a sequence of bytes, here [string].
    - A [[]uint16] buffer is a [list Z] of code units.
    - The kernel32 procedures are oracles gathered in a record; every call
      the code makes is logged in a trace, so that "is called once" or
      "is called last" can be stated.
    - A Go [error] is [option error]; [None] is [nil]. *)

From Stdlib Require Import Ascii String.
From Stdlib Require Import Floats.
From stdpp Require Import base numbers list strings gmap.

#[local] Set Warnings "-register-all".

Local Open Scope Z_scope.

(** ** Go runtime and standard library pieces used by the file *)
Module Go.

(** [error] values that this file creates or passes on. *)
Inductive ctxError := Canceled | DeadlineExceeded.

Inductive error :=
| Errno (code : Z)                          (* syscall.Errno *)
| Errorf (msg : string)                     (* fmt.Errorf without %w *)
| Wrap (msg : string) (cause : option error) (* fmt.Errorf("msg: %w", err) *)
| WarningsRef (list : list (option error)) (verbose : bool)
                                            (* *common.Warnings as an error *)
| CtxErr (e : ctxError).                    (* ctx.Err() *)

(** [err.(syscall.Errno)] followed by a comparison with a constant. *)
Definition isErrno (err : option error) (code : Z) : bool :=
  match err with
  | Some (Errno c) => c =? code
  | _ => false
  end.

Definition notNil {A} (x : option A) : bool :=
  match x with Some _ => true | None => false end.

(** uint64(x) for a signed 64-bit x. *)
Definition uint64 (x : Z) : Z := x mod 2 ^ 64.

(** Signed division of Go: truncation toward zero. *)
Definition div (x y : Z) : Z := Z.quot x y.

Definition byte (b : Z) : ascii := ascii_of_N (Z.to_N b).

(** utf8.AppendRune: the UTF-8 bytes of one rune; surrogates and values
    above U+10FFFF become U+FFFD. *)
Definition encodeRune (r : Z) : list Z :=
  if r <=? 127 then [r]
  else if r <=? 2047 then
    [Z.lor 192 (Z.shiftr r 6); Z.lor 128 (Z.land r 63)]
  else
    let r := if (1114111 <? r) || ((55296 <=? r) && (r <=? 57343))
             then 65533 else r in
    if r <=? 65535 then
      [Z.lor 224 (Z.shiftr r 12);
       Z.lor 128 (Z.land (Z.shiftr r 6) 63);
       Z.lor 128 (Z.land r 63)]
    else
      [Z.lor 240 (Z.shiftr r 18);
       Z.lor 128 (Z.land (Z.shiftr r 12) 63);
       Z.lor 128 (Z.land (Z.shiftr r 6) 63);
       Z.lor 128 (Z.land r 63)].

(** make([]uint16, n) after a native procedure wrote [written] into it:
    [n] units, zero where nothing was written. *)
Definition buffer (n : Z) (written : list Z) : list Z :=
  take (Z.to_nat n) (written ++ replicate (Z.to_nat n) 0).

(** utf16.Decode: code units to runes, pairing surrogates. *)
Fixpoint utf16Decode (s : list Z) : list Z :=
  match s with
  | [] => []
  | r :: t =>
      if (r <? 55296) || (57344 <=? r) then r :: utf16Decode t
      else
        match t with
        | r2 :: t' =>
            if (r <? 56320) && (56320 <=? r2) && (r2 <? 57344)
            then (Z.lor (Z.shiftl (r - 55296) 10) (r2 - 56320) + 65536)
                   :: utf16Decode t'
            else 65533 :: utf16Decode t
        | [] => [65533]
        end
  end.

(** string(utf16.Decode(s)) *)
Definition stringOfUTF16 (s : list Z) : string :=
  string_of_list_ascii (byte <$> (utf16Decode s ≫= encodeRune)).

(** strings.TrimRight(s, cutset) for a cutset of one ASCII byte: every
    trailing occurrence of that byte is removed. *)
Fixpoint dropWhileEq (c : ascii) (l : list ascii) : list ascii :=
  match l with
  | [] => []
  | x :: t => if decide (x = c) then dropWhileEq c t else l
  end.

Definition TrimRight (s : string) (c : ascii) : string :=
  string_of_list_ascii
    (reverse (dropWhileEq c (reverse (list_ascii_of_string s)))).

End Go.

(** ** golang.org/x/sys/windows: constants and string helpers *)
Module windows.

Definition MAX_PATH : Z := 260.
(** ^Handle(0) on a 64-bit target *)
Definition InvalidHandle : Z := 2 ^ 64 - 1.
Definition ERROR_FILE_NOT_FOUND : Z := 2.
Definition ERROR_NO_MORE_FILES : Z := 18.

Definition DRIVE_UNKNOWN : Z := 0.
Definition DRIVE_NO_ROOT_DIR : Z := 1.
Definition DRIVE_REMOVABLE : Z := 2.
Definition DRIVE_FIXED : Z := 3.
Definition DRIVE_REMOTE : Z := 4.
Definition DRIVE_CDROM : Z := 5.
Definition DRIVE_RAMDISK : Z := 6.

(** The code units before the first NUL. *)
Fixpoint untilNul (s : list Z) : list Z :=
  match s with
  | [] => []
  | v :: t => if v =? 0 then [] else v :: untilNul t
  end.

(** windows.UTF16ToString, and UTF16PtrToString on a terminated buffer,
    with the decoding of utf16.Decode. A toolchain from Go 1.21 on keeps
    an unpaired surrogate in these two as three bytes of WTF-8, where this
    gives U+FFFD; well-formed names are the same in both. *)
Definition UTF16ToString (s : list Z) : string :=
  Go.stringOfUTF16 (untilNul s).

End windows.

(** ** The package: disk (Windows) *)
Module disk.
Import Go.

Local Open Scope string_scope.
Local Open Scope list_scope.
Local Open Scope Z_scope.

Definition volumeNameBufferLength : Z := windows.MAX_PATH + 1.
Definition volumePathBufferLength : Z := volumeNameBufferLength.

Definition fileFileCompression : Z := 16.     (* 0x00000010 *)
Definition fileReadOnlyVolume : Z := 524288.  (* 0x00080000 *)

(** Modelled from the spec: [PartitionStat] is declared in disk.go, which
    is not part of the source at hand; the four fields are those the
    composite literal of [PartitionsWithContext] fills (the MountRecord of
    the specification). *)
Record PartitionStat := {
  Device : string;
  Mountpoint : string;
  Fstype : string;
  Opts : list string }.

(** Modelled from the spec: [common.Warnings] (internal/common) is not part
    of the source at hand. It is the non-fatal warning accumulator: an
    ordered list of errors, [Add] appends one entry, and [Reference] is
    the accumulator itself as an error when it holds an entry and [nil]
    otherwise. *)
Record Warnings := {
  List : list (option error);
  Verbose : bool }.

Definition Warnings_Add (w : Warnings) (err : option error) : Warnings :=
  {| List := List w ++ [err]; Verbose := Verbose w |}.

Definition Warnings_Reference (w : Warnings) : option error :=
  match List w with
  | [] => None
  | _ :: _ => Some (WarningsRef (List w) (Verbose w))
  end.

(** *** The native procedures

    What kernel32 answers. [FindNextVolumeW] moves a cursor, so its
    answers are listed in the order of the calls; the other procedures
    answer by their argument. A call result is the first return value of
    [LazyProc.Call], its error, and what the procedure wrote through its
    out-pointers. *)
Record Kernel32 := {
  (* handle, err, what was written to the volume name buffer *)
  FindFirstVolumeW : Z * option error * list Z;
  (* volRet, err, what was written to the volume name buffer; one entry
     per call *)
  FindNextVolumeW : list (Z * option error * list Z);
  (* volume name buffer -> result, err, what was written to the paths
     buffer, returnLen *)
  GetVolumePathNamesForVolumeNameW : list Z -> Z * option error * list Z * Z;
  (* root path -> drive type *)
  GetDriveTypeW : string -> Z;
  (* windows.GetLastError() after GetDriveTypeW answered DRIVE_UNKNOWN *)
  GetLastError : string -> option error;
  (* root path -> driveRet, err, fsFlags, what was written to the file
     system name buffer *)
  GetVolumeInformationW : string -> Z * option error * Z * list Z }.

(** The native calls, in the order the producer makes them. *)
Inductive Call :=
| CallFindFirstVolume
| CallFindNextVolume (handle : Z)
| CallFindVolumeClose (handle : Z)
| CallGetVolumePathNames (volNameBuf : list Z)
| CallGetDriveType (path : string)
| CallGetLastError
| CallGetVolumeInformation (path : string).

(** *** split0 and getVolumePaths *)

(** One turn of the loop of [split0]: [st] is ([from], [ss]). *)
Definition split0_step (s16 : list Z) (st : nat * list string) (to : nat)
  : nat * list string :=
  let '(from, ss) := st in
  match s16 !! to with
  | Some v =>
      if v =? 0 then
        (S to,
         if (from <? to)%nat && negb (default 0 (s16 !! from) =? 0)
         then ss ++ [stringOfUTF16 (take (to - from) (drop from s16))]
         else ss)
      else st
  | None => st (* not reached: to < end <= len(s16) *)
  end.

Definition split0 (s16 : list Z) (end_ : Z) : list string :=
  let end_ := if Z.of_nat (length s16) <? end_
              then Z.of_nat (length s16) else end_ in
  snd (foldl (split0_step s16) (0%nat, []) (seq 0 (Z.to_nat end_))).

Section WithKernel.
Variable os : Kernel32.

(** The pure part of [getVolumePaths]; the call itself is logged by the
    caller. *)
Definition getVolumePaths (volNameBuf : list Z)
  : list string * option error :=
  let '(result, err, written, returnLen) :=
    GetVolumePathNamesForVolumeNameW os volNameBuf in
  let volPathsBuf := buffer volumePathBufferLength written in
  if notNil err && (result =? 0) then ([], err)
  else (split0 volPathsBuf returnLen, None).

(** *** The producer: the closure [getPartitions]

    State shared with, or observed by, the rest of the program: the
    warnings, the native calls made so far, and the records that went
    through [retChan]. *)
Record State := {
  warnings : Warnings;
  calls : list Call;
  sent : list PartitionStat }.

Definition logCall (c : Call) (st : State) : State :=
  {| warnings := warnings st; calls := calls st ++ [c]; sent := sent st |}.

Definition addWarning (err : option error) (st : State) : State :=
  {| warnings := Warnings_Add (warnings st) err;
     calls := calls st; sent := sent st |}.

Definition send (p : PartitionStat) (st : State) : State :=
  {| warnings := warnings st; calls := calls st; sent := sent st ++ [p] |}.

(** The [select] of the producer. [retChan] is unbuffered and [quitChan]
    is closed only when [PartitionsWithContext] returns, so which case
    runs is fixed by how many records the consumer takes before it
    leaves through [ctx.Done()]: [quit = Some k] says it leaves after
    [k] records, [None] that it never does. The send of record number
    [k] (counting from 0) then finds no receiver and [quitChan] closed. *)
Definition quitSelected (quit : option nat) (st : State) : bool :=
  match quit with
  | Some k => (k <=? length (sent st))%nat
  | None => false
  end.

Definition admitted (driveType : Z) : bool :=
  (driveType =? windows.DRIVE_REMOVABLE) || (driveType =? windows.DRIVE_FIXED)
  || (driveType =? windows.DRIVE_REMOTE) || (driveType =? windows.DRIVE_CDROM).

(** Lines 172-178: the mount options from the file system flags. *)
Definition mountOpts (fsFlags : Z) : list string :=
  let opts := ["rw"] in
  let opts := if negb (Z.land fsFlags fileReadOnlyVolume =? 0)
              then ["ro"] else opts in
  if negb (Z.land fsFlags fileFileCompression =? 0)
  then opts ++ ["compress"] else opts.

Definition mkPartitionStat (volPath : string) (fsFlags : Z)
    (fsNameBuf : list Z) : PartitionStat :=
  let path := TrimRight volPath "\" in
  {| Device := path; Mountpoint := path;
     Fstype := windows.UTF16ToString (buffer 256 fsNameBuf);
     Opts := mountOpts fsFlags |}.

Definition infoFailed (volPath : string) : bool :=
  let '(driveRet, err, _, _) := GetVolumeInformationW os volPath in
  notNil err && (driveRet =? 0).

(** [for _, volPath := range volPaths]; the boolean says that the
    closure returned through [quitChan]. *)
Fixpoint rangeVolPaths (quit : option nat) (driveType : Z)
    (volPaths : list string) (st : State) : State * bool :=
  match volPaths with
  | [] => (st, false)
  | volPath :: rest =>
      if admitted driveType then
        let '(driveRet, err, fsFlags, fsNameBuf) :=
          GetVolumeInformationW os volPath in
        let st := logCall (CallGetVolumeInformation volPath) st in
        if notNil err && (driveRet =? 0) then
          if (driveType =? windows.DRIVE_CDROM)
             || (driveType =? windows.DRIVE_REMOVABLE)
          then rangeVolPaths quit driveType rest st
          else rangeVolPaths quit driveType rest
                 (addWarning
                    (Some (Wrap "failed to get volume information" err)) st)
        else if quitSelected quit st then (st, true)
        else rangeVolPaths quit driveType rest
               (send (mkPartitionStat volPath fsFlags fsNameBuf) st)
      else rangeVolPaths quit driveType rest st
  end.

(** Lines 135-194: the loop body once a volume name is in [volNameBuf]. *)
Definition volumeBody (quit : option nat) (volNameBuf : list Z)
    (st : State) : State * bool :=
  let st := logCall (CallGetVolumePathNames volNameBuf) st in
  let '(volPaths, err) := getVolumePaths volNameBuf in
  if notNil err then
    (addWarning
       (Some (Errorf ("failed to find paths for volume "
                      +:+ windows.UTF16ToString volNameBuf))) st, false)
  else
    match volPaths with
    | [] => (st, false)
    | first :: _ =>
        let driveType := GetDriveTypeW os first in
        let st := logCall (CallGetDriveType first) st in
        if driveType =? windows.DRIVE_UNKNOWN then
          (addWarning (GetLastError os first) (logCall CallGetLastError st),
           false)
        else rangeVolPaths quit driveType volPaths st
    end.

(** How a run of the producer stands: it left the loop (and its
    deferred calls run), or it waits in [FindNextVolumeW] for an answer
    the scenario does not hold. *)
Inductive Status := Exited | Pending.

(** The turns of [for { ... }] with [firstVolume] false: each one starts
    with a call of [FindNextVolumeW], answered by the head of [answers]. *)
Fixpoint nextVolumes (quit : option nat) (handle : Z)
    (answers : list (Z * option error * list Z)) (st : State)
  : State * Status :=
  match answers with
  | [] => (st, Pending)
  | (volRet, err, written) :: rest =>
      let volNameBuf := buffer volumeNameBufferLength written in
      let st := logCall (CallFindNextVolume handle) st in
      if notNil err && (volRet =? 0) then
        if isErrno err windows.ERROR_NO_MORE_FILES then (st, Exited)
        else nextVolumes quit handle rest
               (addWarning (Some (Wrap "failed to find next volume" err)) st)
      else
        let '(st, returned) := volumeBody quit volNameBuf st in
        if returned then (st, Exited)
        else nextVolumes quit handle rest st
  end.

(** The whole [for { ... }]: the first turn skips [FindNextVolumeW]
    ([firstVolume] is true) and uses the name [FindFirstVolumeW] wrote. *)
Definition volumeLoop (quit : option nat) (handle : Z)
    (volNameBuf : list Z) (st : State) : State * Status :=
  let '(st, returned) := volumeBody quit volNameBuf st in
  if returned then (st, Exited)
  else nextVolumes quit handle (FindNextVolumeW os) st.

Record Producer := {
  final : State;
  errFirstVol : option error;
  status : Status }.

Definition initState : State :=
  {| warnings := {| List := []; Verbose := true |};
     calls := []; sent := [] |}.

(** [getPartitions], with its deferred calls: [FindVolumeClose] runs
    when the closure leaves after the handle was obtained; the
    deferred [close(retChan)] is the status [Exited]. *)
Definition getPartitions (quit : option nat) : Producer :=
  let '(nextVolHandle, err, written) := FindFirstVolumeW os in
  let volNameBuf := buffer volumeNameBufferLength written in
  let st := logCall CallFindFirstVolume initState in
  if nextVolHandle =? windows.InvalidHandle then
    {| final := st;
       errFirstVol := Some (Wrap "failed to get first-volume" err);
       status := Exited |}
  else
    let '(st, s) := volumeLoop quit nextVolHandle volNameBuf st in
    match s with
    | Exited =>
        {| final := logCall (CallFindVolumeClose nextVolHandle) st;
           errFirstVol := None; status := Exited |}
    | Pending => {| final := st; errFirstVol := None; status := Pending |}
    end.

(** *** The consumer: the loop of [PartitionsWithContext] *)

(** What the caller's context does: after how many received records the
    consumer's [select] takes [ctx.Done()] ([None]: never), and what
    [ctx.Err()] then is. *)
Record Context := {
  doneAfter : option nat;
  ctxErr : ctxError }.

(** What [retChan] delivers, in order. *)
Inductive chanEvent := Recv (p : PartitionStat) | Closed.

Definition retChan (p : Producer) : list chanEvent :=
  (Recv <$> sent (final p))
  ++ match status p with Exited => [Closed] | Pending => [] end.

(** The [for { select { ... } }] of lines 201-214. [None]: the consumer
    waits for ever. *)
Fixpoint consume (ctx : Context) (p : Producer) (doneAfter : option nat)
    (chan : list chanEvent) (ret : list PartitionStat)
  : option (list PartitionStat * option error) :=
  match doneAfter with
  | Some O => Some (ret, Some (CtxErr (ctxErr ctx)))
  | _ =>
      match chan with
      | [] => None
      | Recv r :: chan' =>
          consume ctx p (Nat.pred <$> doneAfter) chan' (ret ++ [r])
      | Closed :: _ =>
          if notNil (errFirstVol p) then Some (ret, errFirstVol p)
          else Some (ret, Warnings_Reference (warnings (final p)))
      end
  end.

Definition PartitionsWithContext (ctx : Context) (all : bool)
  : option (list PartitionStat * option error) :=
  let p := getPartitions (doneAfter ctx) in
  consume ctx p (doneAfter ctx) (retChan p) [].

End WithKernel.

(** *** IOCountersWithContext *)

(** DISK_PERFORMANCE as the struct [diskPerformance] declares it. *)
Record diskPerformance := {
  BytesRead : Z;            (* int64 *)
  BytesWritten : Z;         (* int64 *)
  ReadTime : Z;             (* int64 *)
  WriteTime : Z;            (* int64 *)
  IdleTime : Z;             (* int64 *)
  ReadCount : Z;            (* uint32 *)
  WriteCount : Z;           (* uint32 *)
  QueueDepth : Z;           (* uint32 *)
  SplitCount : Z;           (* uint32 *)
  QueryTime : Z;            (* int64 *)
  StorageDeviceNumber : Z;  (* uint32 *)
  StorageManagerName : list Z;
  alignmentPadding : Z }.

Definition diskPerformance_zero : diskPerformance :=
  {| BytesRead := 0; BytesWritten := 0; ReadTime := 0; WriteTime := 0;
     IdleTime := 0; ReadCount := 0; WriteCount := 0; QueueDepth := 0;
     SplitCount := 0; QueryTime := 0; StorageDeviceNumber := 0;
     StorageManagerName := replicate 8 0; alignmentPadding := 0 |}.

(** Modelled from the spec: [IOCountersStat] is declared in disk.go, which
    is not part of the source at hand; these are the fields the literal of
    [IOCountersWithContext] fills (byte counts, operation counts, busy
    times, device name), all uint64 but the name. *)
Record IOCountersStat := {
  ReadBytes : Z;
  WriteBytes : Z;
  IOReadCount : Z;
  IOWriteCount : Z;
  IOReadTime : Z;
  IOWriteTime : Z;
  Name : string }.

(** The procedures of golang.org/x/sys/windows this function calls. *)
Record DeviceAPI := {
  (* n, err, what was written to lpBuffer *)
  GetLogicalDriveStrings : Z * option error * list Z;
  GetDriveType : string -> Z;
  (* windows.GetLastError() after GetDriveType answered 0 *)
  DriveTypeLastError : string -> option error;
  (* device name -> handle, err *)
  CreateFile : string -> Z * option error;
  (* handle -> buffer before the call -> buffer after it, err *)
  DeviceIoControl : Z -> diskPerformance -> diskPerformance * option error }.

(** Lines 289-297. *)
Definition mkIOCountersStat (path : string) (dp : diskPerformance)
  : IOCountersStat :=
  {| ReadBytes := uint64 (BytesRead dp);
     WriteBytes := uint64 (BytesWritten dp);
     IOReadCount := uint64 (ReadCount dp);
     IOWriteCount := uint64 (WriteCount dp);
     IOReadTime := uint64 (div (div (ReadTime dp) 10000) 1000);
     IOWriteTime := uint64 (div (div (WriteTime dp) 10000) 1000);
     Name := path |}.

(** The locals that live across the turns of the loop: the map, the
    buffer [diskPerformance], and the handles with a deferred
    [CloseHandle], latest first. *)
Record IOState := {
  drivemap : gmap string IOCountersStat;
  perf : diskPerformance;
  deferred : list Z }.

Section WithDevices.
Variable api : DeviceAPI.

(** [for _, v := range lpBuffer[:lpBufferLen]]: [inr] is a [return]
    inside the loop. *)
Fixpoint rangeDrives (units : list Z) (st : IOState)
  : IOState + (IOState * option error) :=
  match units with
  | [] => inl st
  | v :: rest =>
      if (65 <=? v) && (v <=? 90) then
        let path := string_of_list_ascii (byte <$> encodeRune v) +:+ ":" in
        let typeret := GetDriveType api path in
        if typeret =? 0 then inr (st, DriveTypeLastError api path)
        else if negb (typeret =? windows.DRIVE_FIXED) then
          rangeDrives rest st
        else
          let szDevice := "\\.\" +:+ path in
          let '(h, err) := CreateFile api szDevice in
          if notNil err then
            if isErrno err windows.ERROR_FILE_NOT_FOUND
            then rangeDrives rest st
            else inr (st, err)
          else
            let st := {| drivemap := drivemap st; perf := perf st;
                         deferred := h :: deferred st |} in
            let '(dp, err) := DeviceIoControl api h (perf st) in
            let st := {| drivemap := drivemap st; perf := dp;
                         deferred := deferred st |} in
            if notNil err then inr (st, err)
            else
              rangeDrives rest
                {| drivemap := <[path := mkIOCountersStat path dp]>
                                 (drivemap st);
                   perf := dp; deferred := deferred st |}
      else rangeDrives rest st
  end.

(** What a call does: it returns the map and an error, after closing
    the deferred handles, or it panics on the slice expression. *)
Inductive IOResult :=
| Returned (drivemap : gmap string IOCountersStat) (err : option error)
           (closed : list Z)
| Panicked.

Definition IOCountersWithContext (names : list string) : IOResult :=
  let st := {| drivemap := ∅; perf := diskPerformance_zero;
               deferred := [] |} in
  let '(lpBufferLen, err, written) := GetLogicalDriveStrings api in
  let lpBuffer := buffer 254 written in
  if notNil err then Returned (drivemap st) err []
  else if Z.of_nat (length lpBuffer) <? lpBufferLen then Panicked
  else
    match rangeDrives (take (Z.to_nat lpBufferLen) lpBuffer) st with
    | inl st => Returned (drivemap st) None (deferred st)
    | inr (st, err) => Returned (drivemap st) err (deferred st)
    end.

End WithDevices.

End disk.

(** ** Vocabulary of the specification *)
Module spec.
Import Go disk.
Local Open Scope string_scope.
Local Open Scope list_scope.
Local Open Scope Z_scope.

(** The answers of [FindNextVolumeW], as the loop tells them apart. *)
Definition advanceFailed (a : Z * option error * list Z) : bool :=
  let '(volRet, err, _) := a in notNil err && (volRet =? 0).

Definition exhausted (a : Z * option error * list Z) : bool :=
  let '(_, err, _) := a in
  advanceFailed a && isErrno err windows.ERROR_NO_MORE_FILES.

Definition advanceError (a : Z * option error * list Z) : bool :=
  advanceFailed a && negb (exhausted a).

(** How many answers a run that is not cancelled asks for: all of them
    up to and with the first exhaustion signal. *)
Fixpoint consumed (answers : list (Z * option error * list Z)) : nat :=
  match answers with
  | [] => O
  | a :: rest => if exhausted a then 1%nat else S (consumed rest)
  end.

Definition isFindNext (c : Call) : bool :=
  match c with CallFindNextVolume _ => true | _ => false end.

Definition isClose (c : Call) : bool :=
  match c with CallFindVolumeClose _ => true | _ => false end.

(** How often the cursor was advanced. *)
Definition nextCalls (cs : list Call) : nat :=
  length (List.filter isFindNext cs).

(** Removable and optical drives: a failed lookup means "no media". *)
Definition silentType (driveType : Z) : bool :=
  (driveType =? windows.DRIVE_CDROM) || (driveType =? windows.DRIVE_REMOVABLE).

(** The paths [GetDriveTypeW] was called on, in order. *)
Definition classified (cs : list Call) : list string :=
  omap (λ c, match c with CallGetDriveType p => Some p | _ => None end) cs.

(** The record a mount path yields when its information lookup succeeds. *)
Definition infoRecord (os : Kernel32) (volPath : string)
  : option PartitionStat :=
  let '(_, _, fsFlags, fsNameBuf) := GetVolumeInformationW os volPath in
  if infoFailed os volPath then None
  else Some (mkPartitionStat volPath fsFlags fsNameBuf).

(** The warning a mount path yields when its information lookup fails. *)
Definition infoError (os : Kernel32) (volPath : string) : option error :=
  let '(_, err, _, _) := GetVolumeInformationW os volPath in
  Some (Wrap "failed to get volume information" err).

Definition infoWarning (os : Kernel32) (volPath : string)
  : option (option error) :=
  if infoFailed os volPath then Some (infoError os volPath) else None.

(** Section 4.2, "options": read-only flag set gives ro, else rw;
    compression flag set appends compress. *)
Definition options (readOnly compressed : bool) : list string :=
  (if readOnly then ["ro"] else ["rw"])
  ++ (if compressed then ["compress"] else []).

(** FILE_READ_ONLY_VOLUME is bit 19, FILE_FILE_COMPRESSION bit 4. *)
Definition readOnlyFlag (fsFlags : Z) : bool := Z.testbit fsFlags 19.
Definition compressionFlag (fsFlags : Z) : bool := Z.testbit fsFlags 4.

(** The error of a failed cursor open, the only fatal one. *)
Definition isFirstVolumeError (err : option error) : Prop :=
  ∃ cause, err = Some (Wrap "failed to get first-volume" cause).

Definition firstHandle (os : Kernel32) : Z := (FindFirstVolumeW os).1.1.
Definition firstName (os : Kernel32) : list Z :=
  buffer volumeNameBufferLength (FindFirstVolumeW os).2.

(** *** How the loop moves the producer state

    A record that went through [retChan] comes from a successful
    information lookup; a call made inside the loop is neither the cursor
    open nor the cursor close. *)
Definition fromLookup (os : Kernel32) (r : PartitionStat) : Prop :=
  ∃ volPath, infoRecord os volPath = Some r.

Definition loopCall (c : Call) : Prop :=
  isClose c = false ∧ c ≠ CallFindFirstVolume.

(** [st'] is [st] after more of the loop ran: the three logs only grew. *)
Record extends (os : Kernel32) (st st' : State) : Prop := {
  ext_verbose : Verbose (warnings st') = Verbose (warnings st);
  ext_warnings : List (warnings st) `prefix_of` List (warnings st');
  ext_calls : ∃ cs, calls st' = calls st ++ cs ∧ Forall loopCall cs;
  ext_sent : ∃ rs, sent st' = sent st ++ rs ∧ Forall (fromLookup os) rs }.

(** A run under cancellation that left through [quitChan], against the
    run that is never cancelled: it delivered exactly [k] records, the
    first [k] of what the other run delivers. *)
Definition leftEarly (k : nat) (cancelled full : State) : Prop :=
  length (sent cancelled) = k
  ∧ sent cancelled `prefix_of` sent full
  ∧ (k < length (sent full))%nat.

(** *** Statements of the specification that the code is held against *)

(** Section 7, "stop with partial results": a cursor advance that fails
    with something else than exhaustion is the last advance, and the
    stream ends there. [pre] are the advances that succeeded before. *)
Definition advanceErrorEndsStream (os : Kernel32) : Prop :=
  ∀ pre a post,
    firstHandle os ≠ windows.InvalidHandle →
    FindNextVolumeW os = pre ++ a :: post →
    forallb (λ b, negb (advanceFailed b)) pre = true →
    advanceError a = true →
    let p := getPartitions os None in
    status p = Exited
    ∧ nextCalls (calls (final p)) = S (length pre).

(** Section 8: a volume of unknown type leaves neither a record nor a
    warning. *)
Definition unknownSilentlySkipped (os : Kernel32) (volNameBuf : list Z)
    (st : State) : Prop :=
  ∀ first rest,
    getVolumePaths os volNameBuf = (first :: rest, None) →
    GetDriveTypeW os first = windows.DRIVE_UNKNOWN →
    let r := volumeBody os None volNameBuf st in
    sent r.1 = sent st ∧ warnings r.1 = warnings st.

(** One record per mount path of an admitted volume, named after the
    path without trailing backslashes. *)
Definition recordPerMountPath (os : Kernel32) (volNameBuf : list Z)
    (st : State) : Prop :=
  ∀ first rest,
    getVolumePaths os volNameBuf = (first :: rest, None) →
    admitted (GetDriveTypeW os first) = true →
    let r := volumeBody os None volNameBuf st in
    let new := drop (length (sent st)) (sent r.1) in
    Mountpoint <$> new = (λ p, TrimRight p "\") <$> (first :: rest)
    ∧ Device <$> new = (λ p, TrimRight p "\") <$> (first :: rest).

(** Section 8, "tick conversion": 10,000,000 ticks are 1000 ms. *)
Definition tenMillionTicksAreThousandMs (stat : IOCountersStat) : Prop :=
  IOReadTime stat = 1000 ∧ IOWriteTime stat = 1000.

(** An entry of the drive map and the native answers it was made from. *)
Definition measured (api : DeviceAPI) (path : string) (stat : IOCountersStat)
  : Prop :=
  ∃ h before dp,
    CreateFile api ("\\.\" +:+ path) = (h, None)
    ∧ DeviceIoControl api h before = (dp, None)
    ∧ stat = mkIOCountersStat path dp.

Definition drivemapOf (r : IOResult) : gmap string IOCountersStat :=
  match r with
  | Returned m _ _ => m
  | Panicked => ∅
  end.

End spec.

(** ** Scenarios *)
Module scenario.
Import Go disk.
Local Open Scope string_scope.
Local Open Scope list_scope.
Local Open Scope Z_scope.

Definition units (s : string) : list Z :=
  (λ a, Z.of_N (N_of_ascii a)) <$> list_ascii_of_string s.

Definition nameBuf (s : string) : list Z := units s ++ [0].

Definition pathsBuf (ps : list string) : list Z :=
  (ps ≫= (λ p, units p ++ [0])) ++ [0].

Definition success : option error := Some (Errno 0).

(** GetVolumePathNamesForVolumeNameW from a table of volume names. *)
Definition answerPaths (table : list (string * list string))
    (volNameBuf : list Z) : Z * option error * list Z * Z :=
  match list_find (λ e, e.1 = windows.UTF16ToString volNameBuf) table with
  | Some (_, (_, ps)) =>
      (1, success, pathsBuf ps, Z.of_nat (length (pathsBuf ps)))
  | None => (0, Some (Errno 2), [], 0)
  end.

Definition found (name : string) : Z * option error * list Z :=
  (1, success, nameBuf name).
Definition noMoreFiles : Z * option error * list Z :=
  (0, Some (Errno windows.ERROR_NO_MORE_FILES), []).
Definition accessDenied : Z * option error * list Z :=
  (0, Some (Errno 5), []).

(** Section 8: V1 is fixed, read-only NTFS with compression, mounted at
    C:\; V2 is of unknown type; V3 is removable with two mount paths, the
    first of which has no media. *)
Definition threeVolumes : Kernel32 := {|
  FindFirstVolumeW := (100, success, nameBuf "V1");
  FindNextVolumeW := [found "V2"; found "V3"; noMoreFiles];
  GetVolumePathNamesForVolumeNameW :=
    answerPaths [("V1", ["C:\"]); ("V2", ["U:\"]);
                 ("V3", ["E:\"; "C:\mnt\e\\"])];
  GetDriveTypeW := λ p,
    if String.eqb p "C:\" then windows.DRIVE_FIXED
    else if String.eqb p "E:\" then windows.DRIVE_REMOVABLE
    else windows.DRIVE_UNKNOWN;
  GetLastError := λ _, Some (Errno 3);
  GetVolumeInformationW := λ p,
    if String.eqb p "C:\" then (1, success, 524288 + 16, nameBuf "NTFS")
    else if String.eqb p "E:\" then (0, Some (Errno 21), 0, [])
    else (1, success, 0, nameBuf "FAT32") |}.

(** The cursor fails once after V1 (access denied), then yields V3 and
    reports exhaustion. *)
Definition failingAdvance : Kernel32 := {|
  FindFirstVolumeW := FindFirstVolumeW threeVolumes;
  FindNextVolumeW := [accessDenied; found "V3"; noMoreFiles];
  GetVolumePathNamesForVolumeNameW :=
    GetVolumePathNamesForVolumeNameW threeVolumes;
  GetDriveTypeW := GetDriveTypeW threeVolumes;
  GetLastError := GetLastError threeVolumes;
  GetVolumeInformationW := GetVolumeInformationW threeVolumes |}.

(** One volume of unknown type and nothing else. *)
Definition unknownOnly : Kernel32 := {|
  FindFirstVolumeW := (100, success, nameBuf "V2");
  FindNextVolumeW := [noMoreFiles];
  GetVolumePathNamesForVolumeNameW :=
    GetVolumePathNamesForVolumeNameW threeVolumes;
  GetDriveTypeW := GetDriveTypeW threeVolumes;
  GetLastError := GetLastError threeVolumes;
  GetVolumeInformationW := GetVolumeInformationW threeVolumes |}.

(** One fixed volume mounted at C:\ whose information lookup fails. *)
Definition fixedUnreadable : Kernel32 := {|
  FindFirstVolumeW := (100, success, nameBuf "V1");
  FindNextVolumeW := [noMoreFiles];
  GetVolumePathNamesForVolumeNameW :=
    GetVolumePathNamesForVolumeNameW threeVolumes;
  GetDriveTypeW := GetDriveTypeW threeVolumes;
  GetLastError := GetLastError threeVolumes;
  GetVolumeInformationW := λ _, (0, Some (Errno 21), 0, []) |}.

(** No cursor can be opened. *)
Definition noCursor : Kernel32 := {|
  FindFirstVolumeW := (windows.InvalidHandle, Some (Errno 5), []);
  FindNextVolumeW := [];
  GetVolumePathNamesForVolumeNameW :=
    GetVolumePathNamesForVolumeNameW threeVolumes;
  GetDriveTypeW := GetDriveTypeW threeVolumes;
  GetLastError := GetLastError threeVolumes;
  GetVolumeInformationW := GetVolumeInformationW threeVolumes |}.

Definition background : Context :=
  {| doneAfter := None; ctxErr := Canceled |}.
Definition cancelledAfter (k : nat) : Context :=
  {| doneAfter := Some k; ctxErr := Canceled |}.

(** A machine with the fixed drive C: whose busy times are 10,000,000
    ticks each, a CD-ROM drive D: and a fixed drive E: that is gone. *)
Definition tenMillionTicks : diskPerformance :=
  {| BytesRead := 4096; BytesWritten := 512; ReadTime := 10000000;
     WriteTime := 10000000; IdleTime := 0; ReadCount := 3; WriteCount := 1;
     QueueDepth := 0; SplitCount := 0; QueryTime := 0;
     StorageDeviceNumber := 0; StorageManagerName := replicate 8 0;
     alignmentPadding := 0 |}.

Definition oneBusyDrive : DeviceAPI := {|
  GetLogicalDriveStrings :=
    (12, None, pathsBuf ["C:\"; "D:\"; "E:\"]);
  GetDriveType := λ p,
    if String.eqb p "D:" then windows.DRIVE_CDROM else windows.DRIVE_FIXED;
  DriveTypeLastError := λ _, None;
  CreateFile := λ dev,
    if String.eqb dev "\\.\C:" then (7, None)
    else (windows.InvalidHandle, Some (Errno windows.ERROR_FILE_NOT_FOUND));
  DeviceIoControl := λ _ _, (tenMillionTicks, None) |}.

End scenario.

(** ** Buffers of NUL-terminated fields *)
Module layout.
Import Go disk.
Local Open Scope string_scope.
Local Open Scope list_scope.
Local Open Scope Z_scope.

(** The fields of a buffer that are closed by a NUL, in order; [cur] is
    the field being read. What follows the last NUL is not a field. *)
Fixpoint segments (cur : list Z) (s : list Z) : list (list Z) :=
  match s with
  | [] => []
  | v :: t => if v =? 0 then cur :: segments [] t
              else segments (cur ++ [v]) t
  end.

(** The field still open at the end of the buffer. *)
Fixpoint pending (cur : list Z) (s : list Z) : list Z :=
  match s with
  | [] => cur
  | v :: t => if v =? 0 then pending [] t else pending (cur ++ [v]) t
  end.

(** The closed fields that hold at least one unit. *)
Definition fields (s : list Z) : list (list Z) :=
  filter (λ seg, seg ≠ []) (segments [] s).

(** A field as the system writes it: some units, none of them NUL. *)
Definition field (seg : list Z) : Prop :=
  seg ≠ [] ∧ Forall (λ v, v ≠ 0) seg.

(** Fields laid out one after the other, each closed by a NUL. *)
Definition multiString (segs : list (list Z)) : list Z :=
  segs ≫= (λ seg, seg ++ [0]).

End layout.

(** ** The stream of an enumeration, volume by volume *)
Module stream.
Import Go disk spec.
Local Open Scope string_scope.
Local Open Scope list_scope.
Local Open Scope Z_scope.

(** The answers of the cursor that come before its first exhaustion
    signal. *)
Fixpoint beforeExhaustion (answers : list (Z * option error * list Z))
  : list (Z * option error * list Z) :=
  match answers with
  | [] => []
  | a :: rest => if exhausted a then [] else a :: beforeExhaustion rest
  end.

(** The records one volume contributes: those of its mount paths whose
    information lookup succeeds, if its paths resolve and the type of the
    first one is admitted. *)
Definition volumeRecords (os : Kernel32) (volNameBuf : list Z)
  : list PartitionStat :=
  match getVolumePaths os volNameBuf with
  | (first :: rest, None) =>
      if admitted (GetDriveTypeW os first)
      then omap (infoRecord os) (first :: rest) else []
  | _ => []
  end.

(** The warnings one volume contributes. *)
Definition volumeWarnings (os : Kernel32) (volNameBuf : list Z)
  : list (option error) :=
  match getVolumePaths os volNameBuf with
  | (_, Some _) =>
      [Some (Errorf ("failed to find paths for volume "
                     +:+ windows.UTF16ToString volNameBuf))]
  | ([], None) => []
  | (first :: rest, None) =>
      if GetDriveTypeW os first =? windows.DRIVE_UNKNOWN
      then [GetLastError os first]
      else if admitted (GetDriveTypeW os first)
           then (if silentType (GetDriveTypeW os first) then []
                 else omap (infoWarning os) (first :: rest))
           else []
  end.

(** The same for one answer of the cursor: a failed advance contributes no
    record and one warning. *)
Definition answerRecords (os : Kernel32) (a : Z * option error * list Z)
  : list PartitionStat :=
  if advanceFailed a then []
  else volumeRecords os (buffer volumeNameBufferLength a.2).

Definition answerWarnings (os : Kernel32) (a : Z * option error * list Z)
  : list (option error) :=
  if advanceFailed a
  then [Some (Wrap "failed to find next volume" a.1.2)]
  else volumeWarnings os (buffer volumeNameBufferLength a.2).

(** The drive types that are neither unknown nor admitted, such as
    DRIVE_NO_ROOT_DIR and DRIVE_RAMDISK. *)
Definition passedOver (driveType : Z) : bool :=
  negb (driveType =? windows.DRIVE_UNKNOWN) && negb (admitted driveType).

(** The units of [lpBuffer] that leave no trace in [IOCountersWithContext]:
    what is not a capital letter, a drive of a type other than 0 and
    DRIVE_FIXED, and a fixed drive whose device is not found. *)
Definition drivePath (v : Z) : string :=
  string_of_list_ascii (byte <$> encodeRune v) +:+ ":".

Definition ignoredUnit (api : DeviceAPI) (v : Z) : bool :=
  if (65 <=? v) && (v <=? 90) then
    let typeret := GetDriveType api (drivePath v) in
    if typeret =? 0 then false
    else if negb (typeret =? windows.DRIVE_FIXED) then true
    else let '(_, err) := CreateFile api ("\\.\" +:+ drivePath v) in
         notNil err && isErrno err windows.ERROR_FILE_NOT_FOUND
  else true.

(** What holds of an entry of the drive map: it is filed under the name
    of a fixed drive whose capital letter is among [units], and the handle
    of its device is among [handles]. *)
Definition listed (api : DeviceAPI) (units handles : list Z)
    (path : string) (stat : IOCountersStat) : Prop :=
  Name stat = path
  ∧ GetDriveType api path = windows.DRIVE_FIXED
  ∧ (∃ v, v ∈ units ∧ 65 ≤ v ≤ 90 ∧ path = drivePath v)
  ∧ ∃ h, CreateFile api ("\\.\" +:+ path) = (h, None) ∧ h ∈ handles.

End stream.

(** ** UsageWithContext *)
Module usage.
Import Go disk.
Local Open Scope string_scope.
Local Open Scope list_scope.
Local Open Scope Z_scope.

(** float64(x) for an integer x: the nearest double, ties to even. *)
Definition float64 (x : Z) : float :=
  SF2Prim (binary_normalize prec emax x 0 false).

(** Modelled from the spec: [UsageStat] is declared in disk.go, which is
    not part of the source at hand; these are the fields the literal of
    [UsageWithContext] fills (the inode fields stay zero). *)
Record UsageStat := {
  Path : string;
  Total : Z;            (* uint64 *)
  Free : Z;             (* uint64 *)
  Used : Z;             (* uint64 *)
  UsedPercent : float }.

(** GetDiskFreeSpaceExW: path -> diskret, err, and what was written to
    lpFreeBytesAvailable, lpTotalNumberOfBytes, lpTotalNumberOfFreeBytes
    (int64 each, zero before the call). *)
Definition FreeSpaceAPI : Type := string → Z * option error * Z * Z * Z.

Inductive UsageResult :=
| UsageReturned (ret : option UsageStat) (err : option error)
| UsagePanicked.

(** windows.StringToUTF16Ptr panics on a string that holds a NUL byte. *)
Definition hasNul (s : string) : bool :=
  existsb (λ a, (N_of_ascii a =? 0)%N) (list_ascii_of_string s).

Definition UsageWithContext (GetDiskFreeSpaceExW : FreeSpaceAPI)
    (path : string) : UsageResult :=
  if hasNul path then UsagePanicked
  else
    let '(diskret, err, lpFreeBytesAvailable, lpTotalNumberOfBytes,
          lpTotalNumberOfFreeBytes) := GetDiskFreeSpaceExW path in
    if diskret =? 0 then UsageReturned None err
    else
      UsageReturned
        (Some {| Path := path;
                 Total := uint64 lpTotalNumberOfBytes;
                 Free := uint64 lpTotalNumberOfFreeBytes;
                 Used := uint64 (uint64 lpTotalNumberOfBytes
                                 - uint64 lpTotalNumberOfFreeBytes);
                 UsedPercent :=
                   PrimFloat.mul
                     (PrimFloat.div
                        (PrimFloat.sub (float64 lpTotalNumberOfBytes)
                           (float64 lpTotalNumberOfFreeBytes))
                        (float64 lpTotalNumberOfBytes))
                     (float64 100) |})
        None.

End usage.

(** ** More scenarios *)
Module cases.
Import Go disk scenario.
Local Open Scope string_scope.
Local Open Scope list_scope.
Local Open Scope Z_scope.

(** Only the removable volume V3 of [threeVolumes]: its first mount path
    has no media, its second one is read. *)
Definition removableOnly : Kernel32 := {|
  FindFirstVolumeW := (100, success, nameBuf "V3");
  FindNextVolumeW := [noMoreFiles];
  GetVolumePathNamesForVolumeNameW :=
    GetVolumePathNamesForVolumeNameW threeVolumes;
  GetDriveTypeW := GetDriveTypeW threeVolumes;
  GetLastError := GetLastError threeVolumes;
  GetVolumeInformationW := GetVolumeInformationW threeVolumes |}.

(** A RAM disk mounted at R:\ and nothing else. *)
Definition ramDiskOnly : Kernel32 := {|
  FindFirstVolumeW := (100, success, nameBuf "V9");
  FindNextVolumeW := [noMoreFiles];
  GetVolumePathNamesForVolumeNameW := answerPaths [("V9", ["R:\"])];
  GetDriveTypeW := λ _, windows.DRIVE_RAMDISK;
  GetLastError := λ _, None;
  GetVolumeInformationW := λ _, (1, success, 0, nameBuf "NTFS") |}.

(** Three fixed drives C:, D: and E:; the counters of D: cannot be
    read, and its answer leaves the buffer zeroed. *)
Definition secondDriveFails : DeviceAPI := {|
  GetLogicalDriveStrings := (12, None, pathsBuf ["C:\"; "D:\"; "E:\"]);
  GetDriveType := λ _, windows.DRIVE_FIXED;
  DriveTypeLastError := λ _, None;
  CreateFile := λ dev,
    if String.eqb dev "\\.\C:" then (7, None)
    else if String.eqb dev "\\.\D:" then (8, None) else (9, None);
  DeviceIoControl := λ h _,
    if h =? 8 then (diskPerformance_zero, Some (Errno 5))
    else (tenMillionTicks, None) |}.

(** A volume of 100 bytes with 25 bytes free. *)
Definition quarterFree : usage.FreeSpaceAPI :=
  λ _, (1, success, 20, 100, 25).

End cases.

(** * Properties *)

Import Go disk spec.
Local Open Scope string_scope.
Local Open Scope list_scope.
Local Open Scope Z_scope.

(** ** Bit tests *)

Lemma land_pow2 (a n : Z) :
  0 ≤ n → Z.land a (2 ^ n) = if Z.testbit a n then 2 ^ n else 0.
Proof.
  intros Hn. apply Z.bits_inj'. intros m Hm.
  rewrite Z.land_spec, Z.pow2_bits_eqb by done.
  destruct (Z.eqb_spec n m) as [->|Hne].
  - destruct (Z.testbit a m) eqn:E; simpl.
    + by rewrite Z.pow2_bits_true.
    + by rewrite Z.bits_0.
  - rewrite andb_false_r.
    destruct (Z.testbit a n); [|by rewrite Z.bits_0].
    rewrite Z.pow2_bits_false; [done|lia].
Qed.

Lemma flag_test (a n : Z) :
  0 ≤ n → negb (Z.land a (2 ^ n) =? 0) = Z.testbit a n.
Proof.
  intros Hn. rewrite land_pow2 by done.
  destruct (Z.testbit a n); [|done].
  assert (0 < 2 ^ n) by (apply Z.pow_pos_nonneg; lia).
  destruct (Z.eqb_spec (2 ^ n) 0); [lia|done].
Qed.

Lemma mountOpts_options (fsFlags : Z) :
  mountOpts fsFlags = options (readOnlyFlag fsFlags) (compressionFlag fsFlags).
Proof.
  unfold mountOpts, options, readOnlyFlag, compressionFlag.
  change fileReadOnlyVolume with (2 ^ 19).
  change fileFileCompression with (2 ^ 4).
  rewrite !flag_test by lia.
  by destruct (Z.testbit fsFlags 19), (Z.testbit fsFlags 4).
Qed.

(** ** The producer state only grows *)

Section Growth.
Context (os : Kernel32).

Lemma extends_refl st : extends os st st.
Proof.
  split; [done|done|..]; exists []; by rewrite app_nil_r.
Qed.

Lemma extends_trans st1 st2 st3 :
  extends os st1 st2 → extends os st2 st3 → extends os st1 st3.
Proof.
  intros [V1 W1 (c1 & C1 & F1) (r1 & R1 & G1)]
         [V2 W2 (c2 & C2 & F2) (r2 & R2 & G2)].
  split.
  - congruence.
  - by etrans.
  - exists (c1 ++ c2). rewrite C2, C1, app_assoc.
    split; [done|by apply Forall_app].
  - exists (r1 ++ r2). rewrite R2, R1, app_assoc.
    split; [done|by apply Forall_app].
Qed.

Lemma extends_logCall c st : loopCall c → extends os st (logCall c st).
Proof.
  intros Hc. split; simpl; [done|done|..].
  - exists [c]. split; [done|by constructor].
  - exists []. by rewrite app_nil_r.
Qed.

Lemma extends_addWarning e st : extends os st (addWarning e st).
Proof.
  split; simpl; [done|by apply prefix_app_r|..];
    exists []; by rewrite app_nil_r.
Qed.

Lemma extends_send r st : fromLookup os r → extends os st (send r st).
Proof.
  intros Hr. split; simpl; [done|done|..].
  - exists []. by rewrite app_nil_r.
  - exists [r]. split; [done|by constructor].
Qed.

Lemma infoRecord_success volPath driveRet err fsFlags fsNameBuf :
  GetVolumeInformationW os volPath = (driveRet, err, fsFlags, fsNameBuf) →
  notNil err && (driveRet =? 0) = false →
  infoRecord os volPath = Some (mkPartitionStat volPath fsFlags fsNameBuf).
Proof.
  intros E F. unfold infoRecord, infoFailed. by rewrite E, F.
Qed.

Lemma rangeVolPaths_extends quit driveType volPaths st :
  extends os st (rangeVolPaths os quit driveType volPaths st).1.
Proof.
  revert st. induction volPaths as [|p ps IH]; intros st;
    cbn [rangeVolPaths]; [apply extends_refl|].
  destruct (admitted driveType); [|apply IH].
  destruct (GetVolumeInformationW os p) as [[[driveRet err] fsFlags] buf] eqn:E.
  assert (extends os st (logCall (CallGetVolumeInformation p) st)) as Hlog
    by (apply extends_logCall; by split).
  destruct (notNil err && (driveRet =? 0)) eqn:F.
  - destruct ((driveType =? windows.DRIVE_CDROM)
              || (driveType =? windows.DRIVE_REMOVABLE)).
    + eapply extends_trans; [exact Hlog|apply IH].
    + eapply extends_trans; [exact Hlog|].
      eapply extends_trans; [apply extends_addWarning|apply IH].
  - destruct (quitSelected quit _); [exact Hlog|].
    eapply extends_trans; [exact Hlog|].
    eapply extends_trans; [|apply IH].
    apply extends_send. exists p. by eapply infoRecord_success.
Qed.

Lemma volumeBody_extends quit volNameBuf st :
  extends os st (volumeBody os quit volNameBuf st).1.
Proof.
  unfold volumeBody.
  assert (extends os st (logCall (CallGetVolumePathNames volNameBuf) st))
    as Hlog by (apply extends_logCall; by split).
  destruct (getVolumePaths os volNameBuf) as [volPaths err].
  destruct (notNil err).
  { eapply extends_trans; [exact Hlog|apply extends_addWarning]. }
  destruct volPaths as [|first rest]; [exact Hlog|].
  eapply extends_trans; [exact Hlog|].
  eapply extends_trans; [apply (extends_logCall (CallGetDriveType first)); by split|].
  destruct (_ =? windows.DRIVE_UNKNOWN).
  - cbn [fst]. eapply extends_trans; [|apply extends_addWarning].
    apply extends_logCall; by split.
  - apply rangeVolPaths_extends.
Qed.

Lemma nextVolumes_extends quit handle answers st :
  extends os st (nextVolumes os quit handle answers st).1.
Proof.
  revert st. induction answers as [|[[volRet err] buf] rest IH]; intros st;
    cbn [nextVolumes]; [apply extends_refl|].
  assert (extends os st (logCall (CallFindNextVolume handle) st)) as Hlog
    by (apply extends_logCall; by split).
  destruct (notNil err && (volRet =? 0)).
  - destruct (isErrno err _); [exact Hlog|].
    eapply extends_trans; [exact Hlog|].
    eapply extends_trans; [apply extends_addWarning|apply IH].
  - pose proof (volumeBody_extends quit (buffer volumeNameBufferLength buf)
                  (logCall (CallFindNextVolume handle) st)) as Hbody.
    destruct (volumeBody os quit _ _) as [st' returned]. cbn [fst] in Hbody.
    destruct returned; cbn [fst].
    + by eapply extends_trans.
    + eapply extends_trans; [exact Hlog|].
      eapply extends_trans; [exact Hbody|apply IH].
Qed.

Lemma volumeLoop_extends quit handle volNameBuf st :
  extends os st (volumeLoop os quit handle volNameBuf st).1.
Proof.
  unfold volumeLoop.
  pose proof (volumeBody_extends quit volNameBuf st) as Hbody.
  destruct (volumeBody os quit volNameBuf st) as [st' returned].
  cbn [fst] in Hbody. destruct returned; [done|].
  eapply extends_trans; [exact Hbody|apply nextVolumes_extends].
Qed.

End Growth.

(** ** The closure as a whole *)

Section Closure.
Context (os : Kernel32).

(** [getPartitions] when the cursor was opened. *)
Lemma getPartitions_opened quit :
  firstHandle os ≠ windows.InvalidHandle →
  let p := getPartitions os quit in
  let run := volumeLoop os quit (firstHandle os) (firstName os)
               (logCall CallFindFirstVolume initState) in
  errFirstVol p = None ∧ status p = run.2 ∧
  final p = match run.2 with
            | Exited => logCall (CallFindVolumeClose (firstHandle os)) run.1
            | Pending => run.1
            end.
Proof.
  unfold getPartitions, firstHandle, firstName.
  destruct (FindFirstVolumeW os) as [[h err] buf]. cbn [fst snd].
  intros Hh. destruct (Z.eqb_spec h windows.InvalidHandle); [done|].
  destruct (volumeLoop os quit h _ _) as [st []]; by cbn.
Qed.

(** [getPartitions] when the cursor could not be opened. *)
Lemma getPartitions_failed quit :
  firstHandle os = windows.InvalidHandle →
  getPartitions os quit =
    {| final := logCall CallFindFirstVolume initState;
       errFirstVol :=
         Some (Wrap "failed to get first-volume" (FindFirstVolumeW os).1.2);
       status := Exited |}.
Proof.
  unfold getPartitions, firstHandle.
  destruct (FindFirstVolumeW os) as [[h err] buf]. cbn [fst snd].
  intros ->. by rewrite Z.eqb_refl.
Qed.

Lemma getPartitions_sent quit :
  Forall (fromLookup os) (sent (final (getPartitions os quit))).
Proof.
  destruct (decide (firstHandle os = windows.InvalidHandle)) as [Hh|Hh].
  - rewrite getPartitions_failed by done. constructor.
  - destruct (getPartitions_opened quit Hh) as (_ & _ & ->).
    destruct (volumeLoop_extends os quit (firstHandle os) (firstName os)
                (logCall CallFindFirstVolume initState))
      as [_ _ _ (rs & Hrs & Hall)].
    destruct (volumeLoop os quit _ _ _) as [st []]; cbn [fst snd] in *;
      cbn [logCall sent]; by rewrite Hrs.
Qed.

(** An exhaustion signal among the answers ends the loop, whatever the
    volumes before it did. *)
Lemma nextVolumes_exits quit handle answers st :
  Exists (λ a, exhausted a = true) answers →
  (nextVolumes os quit handle answers st).2 = Exited.
Proof.
  revert st. induction answers as [|[[volRet err] buf] rest IH]; intros st Hex.
  { by apply Exists_nil in Hex. }
  cbn [nextVolumes]. apply Exists_cons in Hex.
  unfold exhausted, advanceFailed in Hex.
  destruct (notNil err && (volRet =? 0)) eqn:F.
  - destruct (isErrno err _) eqn:G; [done|].
    destruct Hex as [Hex|Hex]; [done|]. by apply IH.
  - destruct Hex as [Hex|Hex]; [done|].
    destruct (volumeBody os quit _ _) as [st' []]; [done|]. by apply IH.
Qed.

Lemma volumeLoop_exits quit handle volNameBuf st :
  Exists (λ a, exhausted a = true) (FindNextVolumeW os) →
  (volumeLoop os quit handle volNameBuf st).2 = Exited.
Proof.
  intros Hex. unfold volumeLoop.
  destruct (volumeBody os quit volNameBuf st) as [st' []]; [done|].
  by apply nextVolumes_exits.
Qed.

End Closure.

(** ** Runs that are not cancelled *)

Section Uncancelled.
Context (os : Kernel32).

Lemma rangeVolPaths_not_admitted quit driveType volPaths st :
  admitted driveType = false →
  rangeVolPaths os quit driveType volPaths st = (st, false).
Proof.
  intros Ha. induction volPaths as [|p ps IH]; cbn [rangeVolPaths];
    [done|by rewrite Ha].
Qed.

(** The loop over the mount paths of an admitted volume: one lookup per
    path, a record for each lookup that succeeds, a warning for each one
    that fails unless the type is removable or optical. *)
Lemma rangeVolPaths_uncancelled driveType volPaths st :
  admitted driveType = true →
  let r := rangeVolPaths os None driveType volPaths st in
  r.2 = false
  ∧ sent r.1 = sent st ++ omap (infoRecord os) volPaths
  ∧ List (warnings r.1) =
      List (warnings st)
      ++ (if silentType driveType then []
          else omap (infoWarning os) volPaths)
  ∧ calls r.1 = calls st ++ (CallGetVolumeInformation <$> volPaths).
Proof.
  intros Ha. revert st. induction volPaths as [|p ps IH]; intros st.
  { cbn. rewrite !app_nil_r.
    destruct (silentType driveType); rewrite ?app_nil_r; auto. }
  cbn [rangeVolPaths]. rewrite Ha.
  unfold silentType in *. cbn [omap list_omap fmap list_fmap].
  unfold infoWarning at 1, infoRecord at 1, infoError, infoFailed.
  destruct (GetVolumeInformationW os p) as [[[driveRet err] fsFlags] buf].
  destruct (notNil err && (driveRet =? 0)).
  - destruct ((driveType =? windows.DRIVE_CDROM)
              || (driveType =? windows.DRIVE_REMOVABLE)) eqn:S.
    + destruct (IH (logCall (CallGetVolumeInformation p) st))
        as (-> & -> & -> & ->).
      cbn [logCall sent warnings calls]. by rewrite <-!app_assoc.
    + destruct (IH (addWarning
                      (Some (Wrap "failed to get volume information" err))
                      (logCall (CallGetVolumeInformation p) st)))
        as (-> & -> & -> & ->).
      cbn [logCall addWarning Warnings_Add List sent warnings calls].
      by rewrite <-!app_assoc.
  - cbn [quitSelected].
    destruct (IH (send (mkPartitionStat p fsFlags buf)
                    (logCall (CallGetVolumeInformation p) st)))
      as (-> & -> & -> & ->).
    cbn [logCall send sent warnings calls]. by rewrite <-!app_assoc.
Qed.

Lemma volumeBody_uncancelled volNameBuf st :
  (volumeBody os None volNameBuf st).2 = false.
Proof.
  unfold volumeBody.
  destruct (getVolumePaths os volNameBuf) as [volPaths err].
  destruct (notNil err); [done|].
  destruct volPaths as [|first rest]; [done|].
  destruct (_ =? windows.DRIVE_UNKNOWN); [done|].
  destruct (admitted (GetDriveTypeW os first)) eqn:Ha.
  - by apply rangeVolPaths_uncancelled.
  - by rewrite rangeVolPaths_not_admitted.
Qed.

(** *** Counting the cursor advances *)

Lemma nextCalls_app cs cs' :
  nextCalls (cs ++ cs') = (nextCalls cs + nextCalls cs')%nat.
Proof. unfold nextCalls. by rewrite List.filter_app, length_app. Qed.

Lemma nextCalls_logCall c st :
  nextCalls (calls (logCall c st)) =
    (nextCalls (calls st) + if isFindNext c then 1 else 0)%nat.
Proof. cbn [logCall calls]. rewrite nextCalls_app. by destruct c. Qed.

Lemma rangeVolPaths_nextCalls quit driveType volPaths st :
  nextCalls (calls (rangeVolPaths os quit driveType volPaths st).1) =
    nextCalls (calls st).
Proof.
  revert st. induction volPaths as [|p ps IH]; intros st;
    cbn [rangeVolPaths]; [done|].
  destruct (admitted driveType); [|apply IH].
  destruct (GetVolumeInformationW os p) as [[[driveRet err] fsFlags] buf].
  destruct (notNil err && (driveRet =? 0)).
  - destruct (_ || _); rewrite IH; cbn [addWarning calls];
      rewrite nextCalls_logCall; cbn; lia.
  - destruct (quitSelected quit _); [|rewrite IH; cbn [send calls]];
      cbn [fst]; rewrite nextCalls_logCall; cbn; lia.
Qed.

Lemma volumeBody_nextCalls quit volNameBuf st :
  nextCalls (calls (volumeBody os quit volNameBuf st).1) =
    nextCalls (calls st).
Proof.
  unfold volumeBody.
  destruct (getVolumePaths os volNameBuf) as [volPaths err].
  destruct (notNil err).
  { cbn [fst addWarning calls]. rewrite nextCalls_logCall. cbn. lia. }
  destruct volPaths as [|first rest].
  { cbn [fst]. rewrite nextCalls_logCall. cbn. lia. }
  destruct (_ =? windows.DRIVE_UNKNOWN).
  - cbn [fst addWarning calls]. rewrite !nextCalls_logCall. cbn. lia.
  - rewrite rangeVolPaths_nextCalls, !nextCalls_logCall. cbn. lia.
Qed.

(** Without cancellation every answer up to the exhaustion signal is
    asked for: no failure on the way ends the loop. *)
Lemma nextVolumes_nextCalls handle answers st :
  nextCalls (calls (nextVolumes os None handle answers st).1) =
    (nextCalls (calls st) + consumed answers)%nat.
Proof.
  revert st. induction answers as [|[[volRet err] buf] rest IH]; intros st;
    cbn [nextVolumes consumed]; [cbn; lia|].
  unfold exhausted, advanceFailed.
  destruct (notNil err && (volRet =? 0)).
  - destruct (isErrno err _); cbn [andb fst].
    + rewrite nextCalls_logCall. cbn. lia.
    + rewrite IH. cbn [addWarning calls]. rewrite nextCalls_logCall. cbn. lia.
  - cbn [andb].
    pose proof (volumeBody_uncancelled (buffer volumeNameBufferLength buf)
                  (logCall (CallFindNextVolume handle) st)) as Hr.
    pose proof (volumeBody_nextCalls None (buffer volumeNameBufferLength buf)
                  (logCall (CallFindNextVolume handle) st)) as Hn.
    destruct (volumeBody os None _ _) as [st' returned].
    cbn [fst snd] in *. subst returned.
    rewrite IH, Hn, nextCalls_logCall. cbn. lia.
Qed.

Lemma volumeLoop_nextCalls handle volNameBuf st :
  nextCalls (calls (volumeLoop os None handle volNameBuf st).1) =
    (nextCalls (calls st) + consumed (FindNextVolumeW os))%nat.
Proof.
  unfold volumeLoop.
  pose proof (volumeBody_uncancelled volNameBuf st) as Hr.
  pose proof (volumeBody_nextCalls None volNameBuf st) as Hn.
  destruct (volumeBody os None volNameBuf st) as [st' returned].
  cbn [fst snd] in *. subst returned.
  by rewrite nextVolumes_nextCalls, Hn.
Qed.

End Uncancelled.

(** ** Cancellation *)

Section Cancellation.
Context (os : Kernel32).

Lemma extends_sent st st' :
  extends os st st' →
  sent st `prefix_of` sent st' ∧ (length (sent st) ≤ length (sent st'))%nat.
Proof.
  intros [_ _ _ (rs & -> & _)]. split; [by apply prefix_app_r|].
  rewrite length_app. lia.
Qed.

Lemma rangeVolPaths_None_goes_on driveType volPaths st :
  (rangeVolPaths os None driveType volPaths st).2 = false.
Proof.
  destruct (admitted driveType) eqn:Ha.
  - by apply rangeVolPaths_uncancelled.
  - by rewrite rangeVolPaths_not_admitted.
Qed.

(** Until the consumer has its [k] records both runs are the same run;
    the send after that finds [quitChan] closed. *)
Lemma rangeVolPaths_cancel k driveType volPaths st :
  (length (sent st) ≤ k)%nat →
  (rangeVolPaths os (Some k) driveType volPaths st =
     rangeVolPaths os None driveType volPaths st
   ∧ (length (sent (rangeVolPaths os None driveType volPaths st).1) ≤ k)%nat)
  ∨ ((rangeVolPaths os (Some k) driveType volPaths st).2 = true
     ∧ leftEarly k (rangeVolPaths os (Some k) driveType volPaths st).1
                   (rangeVolPaths os None driveType volPaths st).1).
Proof.
  revert st. induction volPaths as [|p ps IH]; intros st Hk;
    cbn [rangeVolPaths]; [by left|].
  destruct (admitted driveType); [|by apply IH].
  destruct (GetVolumeInformationW os p) as [[[driveRet err] fsFlags] buf].
  destruct (notNil err && (driveRet =? 0)).
  { destruct (_ || _); by apply IH. }
  cbn [quitSelected logCall sent].
  destruct (Nat.leb_spec k (length (sent st))) as [Hle|Hlt].
  - right. cbn [fst snd]. split; [done|].
    set (st1 := send _ _).
    destruct (extends_sent st1 (rangeVolPaths os None driveType ps st1).1
                (rangeVolPaths_extends os None driveType ps st1))
      as [Hpre Hlen].
    subst st1. cbn [send logCall sent] in *. rewrite length_app in Hlen.
    cbn in Hlen. unfold leftEarly. cbn [logCall sent].
    repeat split; [lia| |lia].
    etrans; [|exact Hpre]. by apply prefix_app_r.
  - apply IH. cbn [send logCall sent]. rewrite length_app. cbn. lia.
Qed.

Lemma volumeBody_cancel k volNameBuf st :
  (length (sent st) ≤ k)%nat →
  (volumeBody os (Some k) volNameBuf st = volumeBody os None volNameBuf st
   ∧ (length (sent (volumeBody os None volNameBuf st).1) ≤ k)%nat)
  ∨ ((volumeBody os (Some k) volNameBuf st).2 = true
     ∧ leftEarly k (volumeBody os (Some k) volNameBuf st).1
                   (volumeBody os None volNameBuf st).1).
Proof.
  intros Hk. unfold volumeBody.
  destruct (getVolumePaths os volNameBuf) as [volPaths err].
  destruct (notNil err); [by left|].
  destruct volPaths as [|first rest]; [by left|].
  destruct (_ =? windows.DRIVE_UNKNOWN); [by left|].
  by apply rangeVolPaths_cancel.
Qed.

Lemma leftEarly_extends k cancelled full full' :
  leftEarly k cancelled full → extends os full full' →
  leftEarly k cancelled full'.
Proof.
  intros (Hlen & Hpre & Hlt) Hext.
  destruct (extends_sent _ _ Hext) as [Hpre' Hlen'].
  repeat split; [done|by etrans|lia].
Qed.

Lemma nextVolumes_cancel k handle answers st :
  (length (sent st) ≤ k)%nat →
  (nextVolumes os (Some k) handle answers st =
     nextVolumes os None handle answers st
   ∧ (length (sent (nextVolumes os None handle answers st).1) ≤ k)%nat)
  ∨ ((nextVolumes os (Some k) handle answers st).2 = Exited
     ∧ leftEarly k (nextVolumes os (Some k) handle answers st).1
                   (nextVolumes os None handle answers st).1).
Proof.
  revert st. induction answers as [|[[volRet err] buf] rest IH]; intros st Hk;
    cbn [nextVolumes]; [by left|].
  destruct (notNil err && (volRet =? 0)).
  { destruct (isErrno err _); [by left|by apply IH]. }
  set (st1 := logCall (CallFindNextVolume handle) st).
  pose proof (volumeBody_uncancelled os (buffer volumeNameBufferLength buf) st1) as Hgo.
  destruct (volumeBody_cancel k (buffer volumeNameBufferLength buf) st1 Hk) as [[-> Hlen]|[Hret Hearly]].
  - destruct (volumeBody os None _ st1) as [st2 returned].
    cbn [fst snd] in *. subst returned. by apply IH.
  - right.
    destruct (volumeBody os (Some k) _ st1) as [stq returned].
    destruct (volumeBody os None _ st1) as [stn returned'].
    cbn [fst snd] in *. subst returned returned'. cbn [fst snd].
    split; [done|].
    eapply leftEarly_extends; [exact Hearly|apply nextVolumes_extends].
Qed.

Lemma volumeLoop_cancel k handle volNameBuf st :
  (length (sent st) ≤ k)%nat →
  (volumeLoop os (Some k) handle volNameBuf st =
     volumeLoop os None handle volNameBuf st
   ∧ (length (sent (volumeLoop os None handle volNameBuf st).1) ≤ k)%nat)
  ∨ ((volumeLoop os (Some k) handle volNameBuf st).2 = Exited
     ∧ leftEarly k (volumeLoop os (Some k) handle volNameBuf st).1
                   (volumeLoop os None handle volNameBuf st).1).
Proof.
  intros Hk. unfold volumeLoop.
  pose proof (volumeBody_uncancelled os volNameBuf st) as Hgo.
  destruct (volumeBody_cancel k volNameBuf st Hk) as [[-> Hlen]|[Hret Hearly]].
  - destruct (volumeBody os None volNameBuf st) as [st2 returned].
    cbn [fst snd] in *. subst returned. by apply nextVolumes_cancel.
  - right.
    destruct (volumeBody os (Some k) volNameBuf st) as [stq returned].
    destruct (volumeBody os None volNameBuf st) as [stn returned'].
    cbn [fst snd] in *. subst returned returned'. cbn [fst snd].
    split; [done|].
    eapply leftEarly_extends; [exact Hearly|apply nextVolumes_extends].
Qed.

Lemma getPartitions_cancel k :
  (getPartitions os (Some k) = getPartitions os None
   ∧ (length (sent (final (getPartitions os None))) ≤ k)%nat)
  ∨ (status (getPartitions os (Some k)) = Exited
     ∧ leftEarly k (final (getPartitions os (Some k)))
                   (final (getPartitions os None))).
Proof.
  unfold getPartitions.
  destruct (FindFirstVolumeW os) as [[h err] buf].
  destruct (h =? windows.InvalidHandle); [left; split; [done|cbn; lia]|].
  set (st0 := logCall CallFindFirstVolume initState).
  set (name := buffer volumeNameBufferLength buf).
  destruct (volumeLoop_cancel k h name st0) as [[-> Hlen]|[Hret Hearly]].
  { cbn. lia. }
  - left. split; [done|].
    by destruct (volumeLoop os None h name st0) as [st []].
  - right.
    destruct (volumeLoop os (Some k) h name st0) as [stq sq].
    destruct (volumeLoop os None h name st0) as [stn sn].
    cbn [fst snd] in *. subst sq. split; [done|].
    by destruct sn.
Qed.

(** The records of the run cancelled after [k] are the first [k] records
    of the run that is not cancelled. *)
Lemma getPartitions_cancel_sent k :
  sent (final (getPartitions os (Some k))) =
    take k (sent (final (getPartitions os None))).
Proof.
  destruct (getPartitions_cancel k) as [[-> Hlen]|[_ (Hlen & Hpre & _)]].
  - by rewrite take_ge.
  - destruct Hpre as [rs ->]. symmetry. by apply take_app_length'.
Qed.

End Cancellation.

(** ** The consumer *)

Section Consumer.
Context (ctx : Context) (p : Producer).

Lemma consume_cancelled rs tail ret :
  consume ctx p (Some (length rs)) ((Recv <$> rs) ++ tail) ret =
    Some (ret ++ rs, Some (CtxErr (ctxErr ctx))).
Proof.
  revert ret. induction rs as [|r rs IH]; intros ret.
  - destruct tail; cbn; by rewrite app_nil_r.
  - cbn. rewrite IH. by rewrite <-app_assoc.
Qed.

Lemma consume_closed rs tail ret :
  consume ctx p None ((Recv <$> rs) ++ Closed :: tail) ret =
    Some (ret ++ rs,
          if notNil (errFirstVol p) then errFirstVol p
          else Warnings_Reference (warnings (final p))).
Proof.
  revert ret. induction rs as [|r rs IH]; intros ret.
  - cbn. rewrite app_nil_r. by destruct (notNil _).
  - cbn. rewrite IH. by rewrite <-app_assoc.
Qed.

(** The three [return] statements of the consumer. *)
Lemma consume_error done chan ret recs err :
  consume ctx p done chan ret = Some (recs, err) →
  err = Some (CtxErr (ctxErr ctx))
  ∨ (notNil (errFirstVol p) = true ∧ err = errFirstVol p)
  ∨ (errFirstVol p = None
     ∧ err = Warnings_Reference (warnings (final p))).
Proof.
  revert done ret. induction chan as [|e chan IH]; intros done ret.
  - destruct done as [[|k]|]; cbn; [|done..]. intros [= <- <-]. by left.
  - destruct done as [[|k]|]; cbn.
    + intros [= <- <-]. by left.
    + destruct e as [r|]; [apply IH|].
      destruct (errFirstVol p) eqn:E; cbn; intros [= <- <-]; auto.
    + destruct e as [r|]; [apply IH|].
      destruct (errFirstVol p) eqn:E; cbn; intros [= <- <-]; auto.
Qed.

End Consumer.

(** ** One volume *)

Section Volume.
Context (os : Kernel32).

Lemma classified_app cs cs' :
  classified (cs ++ cs') = classified cs ++ classified cs'.
Proof. unfold classified. apply omap_app. Qed.

Lemma rangeVolPaths_classified quit driveType volPaths st :
  classified (calls (rangeVolPaths os quit driveType volPaths st).1)
    = classified (calls st).
Proof.
  revert st. induction volPaths as [|p ps IH]; intros st;
    cbn [rangeVolPaths]; [done|].
  destruct (admitted driveType); [|apply IH].
  destruct (GetVolumeInformationW os p) as [[[driveRet err] fsFlags] buf].
  destruct (notNil err && (driveRet =? 0)).
  - destruct (_ || _); rewrite IH; cbn [addWarning logCall calls];
      rewrite classified_app; cbn; by rewrite app_nil_r.
  - destruct (quitSelected quit _); [|rewrite IH];
      cbn [fst send logCall calls]; rewrite classified_app; cbn;
      by rewrite app_nil_r.
Qed.

Lemma infoRecord_names volPath r :
  infoRecord os volPath = Some r →
  Mountpoint r = TrimRight volPath "\" ∧ Device r = TrimRight volPath "\".
Proof.
  unfold infoRecord.
  destruct (GetVolumeInformationW os volPath) as [[[? ?] fsFlags] buf].
  destruct (infoFailed os volPath); [done|]. by intros [= <-].
Qed.

Lemma infoRecord_failed volPath :
  infoRecord os volPath = None ↔ infoFailed os volPath = true.
Proof.
  unfold infoRecord.
  destruct (GetVolumeInformationW os volPath) as [[[? ?] fsFlags] buf].
  by destruct (infoFailed os volPath).
Qed.

(** *** Splitting the answers of the cursor *)

Lemma nextVolumes_app handle pre answers st :
  Forall (λ a, exhausted a = false) pre →
  nextVolumes os None handle (pre ++ answers) st
    = nextVolumes os None handle answers
        (nextVolumes os None handle pre st).1.
Proof.
  intros Hpre. revert st.
  induction Hpre as [|[[volRet err] buf] pre Ha _ IH]; intros st; [done|].
  cbn [app nextVolumes]. unfold exhausted, advanceFailed in Ha.
  destruct (notNil err && (volRet =? 0)).
  - destruct (isErrno err _); [done|]. apply IH.
  - pose proof (volumeBody_uncancelled os (buffer volumeNameBufferLength buf)
                  (logCall (CallFindNextVolume handle) st)) as Hgo.
    destruct (volumeBody os None _ _) as [st' returned].
    cbn [snd] in Hgo. subst returned. apply IH.
Qed.

Lemma consumed_app pre answers :
  Forall (λ a, exhausted a = false) pre →
  consumed (pre ++ answers) = (length pre + consumed answers)%nat.
Proof.
  induction 1 as [|a pre Ha _ IH]; [done|].
  cbn [app consumed length]. rewrite Ha, IH. lia.
Qed.

End Volume.

(** ** The drive map *)

Section DriveMap.
Context (api : DeviceAPI).

Lemma ticks_nonneg (t : Z) :
  0 ≤ t < 2 ^ 63 → uint64 (div (div t 10000) 1000) = t / 10000000.
Proof.
  intros Ht. unfold uint64, div.
  rewrite (Z.quot_div_nonneg t) by lia.
  assert (0 ≤ t / 10000) by (apply Z.div_pos; lia).
  rewrite Z.quot_div_nonneg by lia.
  rewrite Z.div_div by lia. change (10000 * 1000) with 10000000.
  apply Z.mod_small. split; [apply Z.div_pos; lia|].
  apply Z.div_lt_upper_bound; lia.
Qed.

(** Every entry of the map was made from the answer of one
    [DeviceIoControl] call on the handle of that drive. *)
Lemma rangeDrives_measured units st :
  map_Forall (measured api) (drivemap st) →
  match rangeDrives api units st with
  | inl st' => map_Forall (measured api) (drivemap st')
  | inr (st', _) => map_Forall (measured api) (drivemap st')
  end.
Proof.
  revert st. induction units as [|v rest IH]; intros st Hst;
    cbn [rangeDrives]; [done|].
  destruct ((65 <=? v) && (v <=? 90)); [|by apply IH].
  set (path := string_of_list_ascii (byte <$> encodeRune v) +:+ ":").
  destruct (GetDriveType api path =? 0); [done|].
  destruct (negb (GetDriveType api path =? windows.DRIVE_FIXED));
    [by apply IH|].
  destruct (CreateFile api ("\\.\" +:+ path)) as [h err] eqn:Hopen.
  destruct err as [e|]; cbn [notNil].
  { destruct (isErrno (Some e) _); [by apply IH|done]. }
  cbn [perf drivemap deferred].
  destruct (DeviceIoControl api h (perf st)) as [dp err] eqn:Hio.
  destruct err as [e|]; cbn [notNil]; [done|].
  apply IH. cbn [drivemap]. apply map_Forall_insert_2; [|done].
  by exists h, (perf st), dp.
Qed.

Lemma IOCountersWithContext_measured names m err closed :
  IOCountersWithContext api names = Returned m err closed →
  map_Forall (measured api) m.
Proof.
  unfold IOCountersWithContext.
  destruct (GetLogicalDriveStrings api) as [[lpBufferLen e] written].
  destruct (notNil e).
  { intros [= <- _ _]. apply map_Forall_empty. }
  destruct (_ <? lpBufferLen); [done|].
  set (st0 := {| drivemap := ∅; perf := diskPerformance_zero;
                 deferred := [] |}).
  pose proof (rangeDrives_measured
                (take (Z.to_nat lpBufferLen) (buffer 254 written)) st0
                (map_Forall_empty _)) as Hall.
  destruct (rangeDrives api _ st0) as [st|[st e']];
    by intros [= <- _ _].
Qed.

End DriveMap.

(** * Main results *)

Import scenario.

(** C8. Every [PartitionStat] that goes through [retChan] was built from a
    successful [GetVolumeInformationW] answer, and its options are exactly
    ro when the read-only-volume flag of that answer is set and rw
    otherwise, followed by compress if and only if the file-compression
    flag is set. *)
Theorem options_from_flags (os : Kernel32) (quit : option nat)
    (r : PartitionStat) :
  r ∈ sent (final (getPartitions os quit)) →
  ∃ volPath driveRet err fsFlags fsNameBuf,
    GetVolumeInformationW os volPath = (driveRet, err, fsFlags, fsNameBuf)
    ∧ r = mkPartitionStat volPath fsFlags fsNameBuf
    ∧ Opts r = options (readOnlyFlag fsFlags) (compressionFlag fsFlags).
Proof.
  intros Hr.
  pose proof (getPartitions_sent os quit) as Hall.
  rewrite Forall_forall in Hall. destruct (Hall r Hr) as [volPath Hrec].
  unfold infoRecord in Hrec.
  destruct (GetVolumeInformationW os volPath)
    as [[[driveRet err] fsFlags] buf] eqn:E.
  destruct (infoFailed os volPath); [done|]. injection Hrec as <-.
  exists volPath, driveRet, err, fsFlags, buf.
  split; [exact E|]. split; [done|]. apply mountOpts_options.
Qed.

Lemma options_from_flags_witness :
  ∃ volPath driveRet err fsFlags fsNameBuf,
    GetVolumeInformationW threeVolumes volPath
      = (driveRet, err, fsFlags, fsNameBuf)
    ∧ {| Device := "C:"; Mountpoint := "C:"; Fstype := "NTFS";
         Opts := ["ro"; "compress"] |}
      = mkPartitionStat volPath fsFlags fsNameBuf
    ∧ ["ro"; "compress"]
      = options (readOnlyFlag fsFlags) (compressionFlag fsFlags).
Proof.
  apply (options_from_flags threeVolumes None
           {| Device := "C:"; Mountpoint := "C:"; Fstype := "NTFS";
              Opts := ["ro"; "compress"] |}).
  vm_compute. apply list_elem_of_here.
Defined.

(** C7. Once [FindFirstVolumeW] gave a handle, the producer cannot finish
    without closing it: it finishes when the cursor reports exhaustion and
    when a send finds [quitChan] closed, and whenever it has finished the
    last native call is [FindVolumeClose] on that handle, made once. *)
Theorem handle_released (os : Kernel32) (quit : option nat) :
  firstHandle os ≠ windows.InvalidHandle →
  let p := getPartitions os quit in
  (Exists (λ a, exhausted a = true) (FindNextVolumeW os) → status p = Exited)
  ∧ (∀ k, quit = Some k →
          (k < length (sent (final (getPartitions os None))))%nat →
          status p = Exited)
  ∧ (status p = Exited →
     ∃ cs, calls (final p) =
             CallFindFirstVolume :: cs
             ++ [CallFindVolumeClose (firstHandle os)]
           ∧ Forall loopCall cs).
Proof.
  intros Hh p. subst p.
  destruct (getPartitions_opened os quit Hh) as (_ & Hs & Hf).
  split; [|split].
  - intros Hex. rewrite Hs. by apply volumeLoop_exits.
  - intros k -> Hk.
    destruct (getPartitions_cancel os k) as [[_ Hlen]|[Hexit _]]; [lia|done].
  - intros Hexit. rewrite Hf. rewrite Hs in Hexit. rewrite Hexit.
    destruct (volumeLoop_extends os quit (firstHandle os) (firstName os)
                (logCall CallFindFirstVolume initState))
      as [_ _ (cs & Hcs & Hall) _].
    exists cs. cbn [logCall calls]. rewrite Hcs. by split.
Qed.

Lemma handle_released_witness :
  ∃ cs, calls (final (getPartitions threeVolumes (Some 0%nat))) =
          CallFindFirstVolume :: cs ++ [CallFindVolumeClose 100]
        ∧ Forall loopCall cs.
Proof.
  refine (proj2 (proj2 (handle_released threeVolumes (Some 0%nat) _)) _).
  - vm_compute. discriminate.
  - reflexivity.
Defined.

(** C5. A mount path whose [GetVolumeInformationW] call fails, in a
    volume of one of the four admitted drive types, yields no record. When
    the type is removable or CD-ROM nothing but the call is left behind;
    when it is one of the other admitted types, fixed or remote, exactly
    one warning is added. This is the state after that path alone, the
    state from which the loop goes on with the remaining paths, and what
    the path contributes to the records and warnings of a whole volume in
    a run that is not cancelled. *)
Theorem failed_lookup_policy (os : Kernel32) (quit : option nat)
    (driveType : Z) (volPath : string) (pre rest : list string)
    (st : State) :
  infoFailed os volPath = true →
  driveType = windows.DRIVE_REMOVABLE ∨ driveType = windows.DRIVE_CDROM
  ∨ driveType = windows.DRIVE_FIXED ∨ driveType = windows.DRIVE_REMOTE →
  let looked := logCall (CallGetVolumeInformation volPath) st in
  let warned := addWarning (infoError os volPath) looked in
  admitted driveType = true
  ∧ (driveType = windows.DRIVE_REMOVABLE
     ∨ driveType = windows.DRIVE_CDROM →
     rangeVolPaths os quit driveType [volPath] st = (looked, false)
     ∧ sent looked = sent st ∧ warnings looked = warnings st
     ∧ rangeVolPaths os quit driveType (volPath :: rest) st
       = rangeVolPaths os quit driveType rest looked)
  ∧ (driveType = windows.DRIVE_FIXED ∨ driveType = windows.DRIVE_REMOTE →
     rangeVolPaths os quit driveType [volPath] st = (warned, false)
     ∧ sent warned = sent st
     ∧ List (warnings warned) = List (warnings st) ++ [infoError os volPath]
     ∧ rangeVolPaths os quit driveType (volPath :: rest) st
       = rangeVolPaths os quit driveType rest warned)
  ∧ sent (rangeVolPaths os None driveType (pre ++ volPath :: rest) st).1
    = sent st ++ omap (infoRecord os) pre ++ omap (infoRecord os) rest
  ∧ List (warnings
            (rangeVolPaths os None driveType (pre ++ volPath :: rest) st).1)
    = List (warnings st)
      ++ (if silentType driveType then []
          else omap (infoWarning os) pre
               ++ infoError os volPath :: omap (infoWarning os) rest).
Proof.
  intros Hfail HT looked warned.
  assert (admitted driveType = true) as Ha
    by (destruct HT as [->|[->|[->| ->]]]; reflexivity).
  assert (∀ l, rangeVolPaths os quit driveType (volPath :: l) st
               = rangeVolPaths os quit driveType l
                   (if silentType driveType then looked else warned))
    as Hstep.
  { intros l. cbn [rangeVolPaths]. rewrite Ha. subst warned looked.
    unfold infoFailed in Hfail. unfold infoError, silentType.
    destruct (GetVolumeInformationW os volPath)
      as [[[driveRet err] fsFlags] buf].
    rewrite Hfail. by destruct (_ || _). }
  split; [exact Ha|]. split; [|split; [|split]].
  - intros Hs.
    assert (silentType driveType = true) as Hsil
      by (destruct Hs as [->| ->]; reflexivity).
    rewrite !Hstep, Hsil. done.
  - intros Hs.
    assert (silentType driveType = false) as Hsil
      by (destruct Hs as [->| ->]; reflexivity).
    rewrite !Hstep, Hsil. done.
  - destruct (rangeVolPaths_uncancelled os driveType
                (pre ++ volPath :: rest) st Ha) as (_ & -> & _).
    rewrite omap_app. cbn [omap list_omap].
    apply infoRecord_failed in Hfail. by rewrite Hfail.
  - destruct (rangeVolPaths_uncancelled os driveType
                (pre ++ volPath :: rest) st Ha) as (_ & _ & -> & _).
    destruct (silentType driveType); [done|].
    rewrite omap_app. cbn [omap list_omap].
    unfold infoWarning at 2. by rewrite Hfail.
Qed.

Lemma failed_lookup_policy_witness :
  rangeVolPaths threeVolumes None windows.DRIVE_REMOVABLE ["E:\"] initState
  = (logCall (CallGetVolumeInformation "E:\") initState, false)
  ∧ rangeVolPaths fixedUnreadable None windows.DRIVE_FIXED ["C:\"] initState
    = (addWarning
         (Some (Wrap "failed to get volume information" (Some (Errno 21))))
         (logCall (CallGetVolumeInformation "C:\") initState), false).
Proof.
  split.
  - destruct (failed_lookup_policy threeVolumes None windows.DRIVE_REMOVABLE
                "E:\" [] [] initState eq_refl (or_introl eq_refl))
      as (_ & Hsilent & _).
    destruct (Hsilent (or_introl eq_refl)) as [Hone _]. exact Hone.
  - destruct (failed_lookup_policy fixedUnreadable None windows.DRIVE_FIXED
                "C:\" [] [] initState eq_refl
                (or_intror (or_intror (or_introl eq_refl))))
      as (_ & _ & Hwarn & _).
    destruct (Hwarn (or_introl eq_refl)) as [Hone _]. exact Hone.
Defined.

(** C6. When the consumer's [select] takes [ctx.Done()] after [k] records
    were received, [PartitionsWithContext] returns exactly those records,
    the first [k] of the stream, with [ctx.Err()]; that error is neither
    the error of a failed cursor open nor the warnings reference of a
    completed run. For [k = 0] the records are empty. *)
Theorem cancellation_returns_received (os : Kernel32) (ctx : Context)
    (all : bool) (k : nat) :
  doneAfter ctx = Some k →
  (k ≤ length (sent (final (getPartitions os None))))%nat →
  PartitionsWithContext os ctx all
    = Some (take k (sent (final (getPartitions os None))),
            Some (CtxErr (ctxErr ctx)))
  ∧ ¬ isFirstVolumeError (Some (CtxErr (ctxErr ctx)))
  ∧ (∀ w, Some (CtxErr (ctxErr ctx)) ≠ Warnings_Reference w)
  ∧ (k = 0%nat →
     PartitionsWithContext os ctx all = Some ([], Some (CtxErr (ctxErr ctx)))).
Proof.
  intros Hd Hk.
  assert (PartitionsWithContext os ctx all
          = Some (take k (sent (final (getPartitions os None))),
                  Some (CtxErr (ctxErr ctx)))) as Hret.
  { unfold PartitionsWithContext, retChan. rewrite Hd.
    rewrite getPartitions_cancel_sent.
    set (rs := take k _).
    assert (length rs = k) as Hlen by (subst rs; rewrite length_take; lia).
    pose proof (consume_cancelled ctx (getPartitions os (Some k)) rs
                  match status (getPartitions os (Some k)) with
                  | Exited => [Closed]
                  | Pending => []
                  end []) as Hc.
    by rewrite Hlen in Hc. }
  split; [exact Hret|]. split; [|split].
  - by intros [cause ?].
  - intros w. unfold Warnings_Reference. by destruct (List w).
  - intros ->. by rewrite Hret.
Qed.

Lemma cancellation_returns_received_witness :
  PartitionsWithContext threeVolumes (cancelledAfter 1) false
    = Some (take 1 (sent (final (getPartitions threeVolumes None))),
            Some (CtxErr Canceled)).
Proof.
  refine (proj1 (cancellation_returns_received threeVolumes (cancelledAfter 1)
                   false 1%nat _ _)).
  - reflexivity.
  - vm_compute. lia.
Defined.

(** What a call that returned can have returned: the first-volume error
    only with the invalid handle; with a valid handle [ctx.Err()] or the
    warnings reference, and when not cancelled all the records sent, after
    the cursor was asked for every answer up to the exhaustion signal. *)
Lemma returned_error_kinds (os : Kernel32) (ctx : Context)
    (all : bool) (recs : list PartitionStat) (err : option error) :
  PartitionsWithContext os ctx all = Some (recs, err) →
  (isFirstVolumeError err → firstHandle os = windows.InvalidHandle)
  ∧ (firstHandle os ≠ windows.InvalidHandle →
     (err = Some (CtxErr (ctxErr ctx))
      ∨ err = Warnings_Reference
                (warnings (final (getPartitions os (doneAfter ctx)))))
     ∧ (doneAfter ctx = None →
        recs = sent (final (getPartitions os None))
        ∧ nextCalls (calls (final (getPartitions os None)))
          = consumed (FindNextVolumeW os)))
  ∧ (firstHandle os = windows.InvalidHandle →
     recs = [] ∧ (doneAfter ctx = None → isFirstVolumeError err)).
Proof.
  unfold PartitionsWithContext. intros Hret.
  assert (firstHandle os ≠ windows.InvalidHandle →
          err = Some (CtxErr (ctxErr ctx))
          ∨ err = Warnings_Reference
                    (warnings (final (getPartitions os (doneAfter ctx)))))
    as Hvalid.
  { intros Hh.
    destruct (getPartitions_opened os (doneAfter ctx) Hh) as (He & _ & _).
    destruct (consume_error _ _ _ _ _ _ _ Hret) as [?|[[Hn _]|[_ ?]]]; auto.
    by rewrite He in Hn. }
  split; [|split].
  - intros [cause ->].
    destruct (decide (firstHandle os = windows.InvalidHandle)) as [|Hh];
      [done|].
    destruct (Hvalid Hh) as [?|Hw]; [done|].
    unfold Warnings_Reference in Hw. by destruct (List _).
  - intros Hh. split; [by apply Hvalid|]. intros Hd. rewrite Hd in Hret.
    destruct (getPartitions_opened os None Hh) as (He & Hs & Hf).
    split.
    + unfold retChan in Hret.
      destruct (status (getPartitions os None)).
      * rewrite consume_closed in Hret. by injection Hret as <- _.
      * rewrite app_nil_r in Hret.
        exfalso. revert Hret. generalize (@nil PartitionStat).
        induction (sent (final (getPartitions os None))) as [|r rs IH];
          intros ret; cbn; [done|apply IH].
    + rewrite Hf.
      pose proof (volumeLoop_nextCalls os (firstHandle os) (firstName os)
                    (logCall CallFindFirstVolume initState)) as Hn.
      destruct (volumeLoop os None _ _ _) as [st []]; cbn [fst snd] in *;
        [rewrite nextCalls_logCall|]; rewrite Hn; cbn; lia.
  - intros Hh. rewrite (getPartitions_failed os _ Hh) in Hret.
    unfold retChan in Hret. cbn in Hret.
    destruct (doneAfter ctx) as [[|k]|]; cbn in Hret;
      injection Hret as <- <-; (split; [done|]); [done..|].
    intros _. by eexists.
Qed.

(** C4. With the invalid handle [PartitionsWithContext] returns no record
    and the first-volume error (or [ctx.Err()], when the context is done
    before anything is received), having made no other native call. With
    a valid handle and a cursor that reports exhaustion it returns, when
    not cancelled, all the records sent with the warnings reference, which
    is [nil] when nothing was recorded and never the first-volume error:
    what fails on single volumes ends up there and nowhere else. Whatever
    the call returns, the error is the first-volume error only when
    [FindFirstVolumeW] gave the invalid handle, so "no volumes" and "no
    enumeration" differ in the error. *)
Theorem fatal_only_on_open_failure (os : Kernel32) (ctx : Context)
    (all : bool) :
  (firstHandle os = windows.InvalidHandle →
   PartitionsWithContext os ctx all
   = Some ([], match doneAfter ctx with
               | Some O => Some (CtxErr (ctxErr ctx))
               | _ => Some (Wrap "failed to get first-volume"
                              (FindFirstVolumeW os).1.2)
               end)
   ∧ calls (final (getPartitions os (doneAfter ctx)))
     = [CallFindFirstVolume])
  ∧ (firstHandle os ≠ windows.InvalidHandle →
     doneAfter ctx = None →
     Exists (λ a, exhausted a = true) (FindNextVolumeW os) →
     PartitionsWithContext os ctx all
     = Some (sent (final (getPartitions os None)),
             Warnings_Reference (warnings (final (getPartitions os None))))
     ∧ ¬ isFirstVolumeError
           (Warnings_Reference (warnings (final (getPartitions os None))))
     ∧ (List (warnings (final (getPartitions os None))) = [] →
        Warnings_Reference (warnings (final (getPartitions os None)))
        = None)
     ∧ nextCalls (calls (final (getPartitions os None)))
       = consumed (FindNextVolumeW os))
  ∧ (∀ recs err,
       PartitionsWithContext os ctx all = Some (recs, err) →
       (isFirstVolumeError err → firstHandle os = windows.InvalidHandle)
       ∧ (firstHandle os ≠ windows.InvalidHandle →
          (err = Some (CtxErr (ctxErr ctx))
           ∨ err = Warnings_Reference
                     (warnings (final (getPartitions os (doneAfter ctx)))))
          ∧ (doneAfter ctx = None →
             recs = sent (final (getPartitions os None))
             ∧ nextCalls (calls (final (getPartitions os None)))
               = consumed (FindNextVolumeW os)))
       ∧ (firstHandle os = windows.InvalidHandle →
          recs = [] ∧ (doneAfter ctx = None → isFirstVolumeError err))).
Proof.
  split; [|split].
  - intros Hh. unfold PartitionsWithContext, retChan.
    rewrite (getPartitions_failed os _ Hh). cbn.
    split; [|done]. by destruct (doneAfter ctx) as [[|k]|].
  - intros Hh Hd Hex.
    assert (PartitionsWithContext os ctx all
            = Some (sent (final (getPartitions os None)),
                    Warnings_Reference
                      (warnings (final (getPartitions os None))))) as Hret.
    { unfold PartitionsWithContext, retChan. rewrite Hd.
      destruct (getPartitions_opened os None Hh) as (He & Hs & _).
      cbn zeta in Hs. rewrite Hs, volumeLoop_exits by done.
      rewrite consume_closed, He. done. }
    split; [exact Hret|]. split; [|split].
    + intros [cause Hw]. unfold Warnings_Reference in Hw.
      by destruct (List _).
    + intros Hnil. unfold Warnings_Reference. by rewrite Hnil.
    + destruct (returned_error_kinds os ctx all _ _ Hret) as (_ & Hv & _).
      destruct (Hv Hh) as [_ Hn]. by destruct (Hn Hd).
  - intros recs err. apply returned_error_kinds.
Qed.

Lemma fatal_only_on_open_failure_witness :
  PartitionsWithContext noCursor background false
  = Some ([], Some (Wrap "failed to get first-volume" (Some (Errno 5))))
  ∧ PartitionsWithContext cases.ramDiskOnly background false
    = Some ([], None).
Proof.
  split.
  - destruct (fatal_only_on_open_failure noCursor background false)
      as (Hfail & _).
    destruct (Hfail eq_refl) as [Hret _]. exact Hret.
  - destruct (fatal_only_on_open_failure cases.ramDiskOnly background false)
      as (_ & Hvalid & _).
    assert (firstHandle cases.ramDiskOnly ≠ windows.InvalidHandle) as Hh
      by (vm_compute; discriminate).
    assert (Exists (λ a, exhausted a = true)
              (FindNextVolumeW cases.ramDiskOnly))
      as Hex by (by apply Exists_cons_hd).
    destruct (Hvalid Hh eq_refl Hex) as [Hret _]. exact Hret.
Defined.

(** C10, as the specification has it, fails on a fixed volume mounted at
    C:\ whose information lookup fails: the volume is admitted and has one
    mount path, and no record is sent for it. *)
Lemma record_per_mount_path_counterexample :
  ¬ recordPerMountPath fixedUnreadable (nameBuf "V1") initState.
Proof.
  intros H. destruct (H "C:\" [] eq_refl eq_refl) as [Hm _].
  vm_compute in Hm. discriminate Hm.
Qed.

(** C10, amended. For a volume with at least one resolved mount path
    [GetDriveTypeW] is called once, on the first path, and its answer
    decides admission for all paths of the volume. Unless the run is
    cancelled, an admitted volume yields, in path order, one record for
    each mount path whose information lookup succeeds and none for a path
    whose lookup fails, and a volume that is not admitted yields none; the
    mount point and the device of a record are the mount path without its
    trailing backslashes. *)
Theorem classified_once_per_volume (os : Kernel32) (quit : option nat)
    (volNameBuf : list Z) (st : State) (first : string) (rest : list string) :
  getVolumePaths os volNameBuf = (first :: rest, None) →
  classified (calls (volumeBody os quit volNameBuf st).1)
    = classified (calls st) ++ [first]
  ∧ sent (volumeBody os None volNameBuf st).1
    = sent st ++ (if admitted (GetDriveTypeW os first)
                  then omap (infoRecord os) (first :: rest) else [])
  ∧ (∀ p r, infoRecord os p = Some r →
            Mountpoint r = TrimRight p "\" ∧ Device r = TrimRight p "\")
  ∧ (∀ p, infoRecord os p = None ↔ infoFailed os p = true).
Proof.
  intros Hpaths. unfold volumeBody. rewrite Hpaths. cbn [notNil].
  split; [|split; [|split]].
  - destruct (_ =? windows.DRIVE_UNKNOWN).
    + cbn [fst addWarning logCall calls]. rewrite !classified_app. cbn.
      by rewrite !app_nil_r.
    + rewrite rangeVolPaths_classified. cbn [logCall calls].
      rewrite !classified_app. cbn. by rewrite !app_nil_r.
  - destruct (Z.eqb_spec (GetDriveTypeW os first) windows.DRIVE_UNKNOWN)
      as [->|_].
    { cbn. by rewrite app_nil_r. }
    destruct (admitted (GetDriveTypeW os first)) eqn:Ha.
    + by destruct (rangeVolPaths_uncancelled os _ (first :: rest)
                     (logCall (CallGetDriveType first)
                        (logCall (CallGetVolumePathNames volNameBuf) st)) Ha)
        as (_ & -> & _).
    + rewrite rangeVolPaths_not_admitted by done. cbn. by rewrite app_nil_r.
  - apply infoRecord_names.
  - apply infoRecord_failed.
Qed.

Lemma classified_once_per_volume_witness :
  classified (calls (volumeBody threeVolumes None (nameBuf "V3") initState).1)
    = ["E:\"]
  ∧ sent (volumeBody threeVolumes None (nameBuf "V3") initState).1
    = [ {| Device := "C:\mnt\e"; Mountpoint := "C:\mnt\e";
           Fstype := "FAT32"; Opts := ["rw"] |} ].
Proof.
  destruct (classified_once_per_volume threeVolumes None (nameBuf "V3")
              initState "E:\" ["C:\mnt\e\\"] eq_refl) as (Hc & Hs & _).
  split; [exact Hc|exact Hs].
Defined.

(** C3, as the specification has it, fails on a volume of unknown type:
    the warning list grows. *)
Lemma unknown_silently_skipped_counterexample :
  ¬ unknownSilentlySkipped unknownOnly (nameBuf "V2") initState.
Proof.
  intros H. destruct (H "U:\" [] eq_refl eq_refl) as [_ Hw].
  vm_compute in Hw. discriminate Hw.
Qed.

(** C3, amended. A volume whose first mount path is classified
    DRIVE_UNKNOWN yields no record and exactly one warning, the value of
    [GetLastError]; no information lookup is made for it and the loop goes
    on with the next volume. *)
Theorem unknown_type_warned (os : Kernel32) (quit : option nat)
    (volNameBuf : list Z) (st : State) (first : string) (rest : list string) :
  getVolumePaths os volNameBuf = (first :: rest, None) →
  GetDriveTypeW os first = windows.DRIVE_UNKNOWN →
  (volumeBody os quit volNameBuf st).2 = false
  ∧ sent (volumeBody os quit volNameBuf st).1 = sent st
  ∧ List (warnings (volumeBody os quit volNameBuf st).1)
    = List (warnings st) ++ [GetLastError os first]
  ∧ calls (volumeBody os quit volNameBuf st).1
    = calls st ++ [CallGetVolumePathNames volNameBuf;
                   CallGetDriveType first; CallGetLastError].
Proof.
  intros Hpaths Hunknown. unfold volumeBody.
  rewrite Hpaths, Hunknown. cbn. by rewrite <-!app_assoc.
Qed.

Lemma unknown_type_warned_witness :
  (volumeBody unknownOnly None (nameBuf "V2") initState).2 = false
  ∧ sent (volumeBody unknownOnly None (nameBuf "V2") initState).1 = []
  ∧ List (warnings (volumeBody unknownOnly None (nameBuf "V2") initState).1)
    = [Some (Errno 3)]
  ∧ calls (volumeBody unknownOnly None (nameBuf "V2") initState).1
    = [CallGetVolumePathNames (nameBuf "V2");
       CallGetDriveType "U:\"; CallGetLastError].
Proof.
  apply (unknown_type_warned unknownOnly None (nameBuf "V2") initState
           "U:\" []); reflexivity.
Defined.

(** C1, as the specification has it, fails when the cursor fails once
    after the first volume: the failed advance is followed by two more
    advances. *)
Lemma advance_error_ends_stream_counterexample :
  ¬ advanceErrorEndsStream failingAdvance.
Proof.
  intros H.
  destruct (H [] accessDenied [found "V3"; noMoreFiles]
              ltac:(vm_compute; discriminate) eq_refl eq_refl eq_refl)
    as [_ Hn].
  vm_compute in Hn. discriminate Hn.
Qed.

(** C1, amended. When an advance of the cursor fails with an error other
    than the exhaustion signal, the loop appends one warning for it and
    goes on with the answers that follow: the run is the run over those
    answers from the state with that warning, so the cursor is advanced
    again for each of them up to the exhaustion signal. The records sent
    before the failure stay in the result, which carries the warnings
    reference and no fatal error. *)
Theorem advance_error_continues (os : Kernel32)
    (pre post : list (Z * option error * list Z))
    (volRet : Z) (err : option error) (buf : list Z) (all : bool) :
  FindNextVolumeW os = pre ++ (volRet, err, buf) :: post →
  Forall (λ a, exhausted a = false) pre →
  advanceError (volRet, err, buf) = true →
  firstHandle os ≠ windows.InvalidHandle →
  let h := firstHandle os in
  let st0 := logCall CallFindFirstVolume initState in
  let before :=
    (nextVolumes os None h pre (volumeBody os None (firstName os) st0).1).1 in
  let warned :=
    addWarning (Some (Wrap "failed to find next volume" err))
      (logCall (CallFindNextVolume h) before) in
  let p := getPartitions os None in
  volumeLoop os None h (firstName os) st0 = nextVolumes os None h post warned
  ∧ List (warnings warned)
    = List (warnings before) ++ [Some (Wrap "failed to find next volume" err)]
  ∧ List (warnings warned) `prefix_of` List (warnings (final p))
  ∧ sent before `prefix_of` sent (final p)
  ∧ nextCalls (calls (final p)) = (length pre + 1 + consumed post)%nat
  ∧ (status p = Exited →
     PartitionsWithContext os {| doneAfter := None; ctxErr := Canceled |} all
       = Some (sent (final p),
               Some (WarningsRef (List (warnings (final p))) true))).
Proof.
  intros Hanswers Hpre Herr Hh h st0 before warned p.
  unfold advanceError, exhausted in Herr. cbn [advanceFailed] in Herr.
  apply andb_prop in Herr as [Hfail Hnot].
  rewrite Hfail in Hnot. cbn [andb negb] in Hnot.
  apply negb_true_iff in Hnot.
  assert (volumeLoop os None h (firstName os) st0
          = nextVolumes os None h post warned) as Hloop.
  { unfold volumeLoop.
    pose proof (volumeBody_uncancelled os (firstName os) st0) as Hgo.
    subst before warned.
    destruct (volumeBody os None (firstName os) st0) as [st1 returned].
    cbn [fst snd] in *. subst returned.
    rewrite Hanswers, nextVolumes_app by done.
    cbn [nextVolumes]. by rewrite Hfail, Hnot. }
  destruct (getPartitions_opened os None Hh) as (He & Hs & Hf).
  fold h st0 in Hs, Hf. rewrite Hloop in Hs, Hf.
  pose proof (nextVolumes_extends os None h post warned) as Hext.
  assert (warnings (final p) = warnings (nextVolumes os None h post warned).1
          ∧ sent (final p) = sent (nextVolumes os None h post warned).1)
    as [Hw Hsent].
  { fold p in Hf. rewrite Hf.
    by destruct (nextVolumes os None h post warned).2. }
  assert (Verbose (warnings (final p)) = true
          ∧ List (warnings (final p)) ≠ []) as [Hv Hne].
  { rewrite Hw. destruct Hext as [Hv [ws Hws] _ _]. split.
    - rewrite Hv. subst warned before. cbn [addWarning Warnings_Add warnings
        Verbose logCall].
      pose proof (nextVolumes_extends os None h pre
                    (volumeBody os None (firstName os) st0).1) as [-> _ _ _].
      by pose proof (volumeBody_extends os None (firstName os) st0)
        as [-> _ _ _].
    - rewrite Hws. subst warned.
      cbn [addWarning Warnings_Add warnings List].
      intros Hnil. apply app_eq_nil in Hnil as [Hnil _].
      by apply app_eq_nil in Hnil as [_ ?]. }
  split; [exact Hloop|]. split; [done|].
  split; [rewrite Hw; apply Hext|].
  split; [|split].
  - rewrite Hsent. destruct (extends_sent os _ _ Hext) as [Hp _]. exact Hp.
  - pose proof (volumeLoop_nextCalls os h (firstName os) st0) as Hn.
    fold p in Hf. rewrite Hf. rewrite Hloop in Hn.
    rewrite Hanswers, consumed_app in Hn by done.
    cbn [consumed] in Hn. unfold exhausted in Hn. cbn [advanceFailed] in Hn.
    rewrite Hfail, Hnot in Hn. cbn [andb] in Hn.
    destruct (nextVolumes os None h post warned).2;
      [rewrite nextCalls_logCall|]; rewrite Hn; cbn; lia.
  - intros Hexit. unfold PartitionsWithContext, retChan. cbn [doneAfter].
    fold p. fold p in He. rewrite Hexit, consume_closed, He.
    cbn [notNil app].
    unfold Warnings_Reference. rewrite Hv.
    by destruct (List (warnings (final p))).
Qed.

Lemma advance_error_continues_witness :
  nextCalls (calls (final (getPartitions failingAdvance None))) = 3%nat.
Proof.
  refine (proj1 (proj2 (proj2 (proj2 (proj2
            (advance_error_continues failingAdvance [] [found "V3"; noMoreFiles]
               0 (Some (Errno 5)) [] false _ _ _ _)))))).
  - reflexivity.
  - constructor.
  - reflexivity.
  - vm_compute. discriminate.
Defined.

(** On a drive whose busy times are 10,000,000 ticks the fields of the
    entry are not the 1000 ms of section 8. *)
Lemma ten_million_ticks_counterexample :
  ¬ (∃ stat, drivemapOf (IOCountersWithContext oneBusyDrive []) !! "C:"
             = Some stat
             ∧ tenMillionTicksAreThousandMs stat).
Proof.
  intros (stat & Hstat & Hr & _).
  vm_compute in Hstat. injection Hstat as <-. discriminate Hr.
Qed.

(** The conversion in general: the busy times of an entry are the raw
    counters of the [DeviceIoControl] answer divided by 10_000 and then by
    1_000, with truncation, that is by 10,000,000 for a counter that is
    not negative. *)
Theorem busy_time_conversion (api : DeviceAPI) (names : list string)
    (m : gmap string IOCountersStat) (err : option error) (closed : list Z)
    (path : string) (stat : IOCountersStat) :
  IOCountersWithContext api names = Returned m err closed →
  m !! path = Some stat →
  ∃ h before dp,
    CreateFile api ("\\.\" +:+ path) = (h, None)
    ∧ DeviceIoControl api h before = (dp, None)
    ∧ IOReadTime stat = uint64 (div (div (ReadTime dp) 10000) 1000)
    ∧ IOWriteTime stat = uint64 (div (div (WriteTime dp) 10000) 1000)
    ∧ (0 ≤ ReadTime dp < 2 ^ 63 → IOReadTime stat = ReadTime dp / 10000000)
    ∧ (0 ≤ WriteTime dp < 2 ^ 63 → IOWriteTime stat = WriteTime dp / 10000000)
    ∧ (ReadTime dp = 10000000 → IOReadTime stat = 1)
    ∧ (WriteTime dp = 10000000 → IOWriteTime stat = 1).
Proof.
  intros Hret Hpath.
  destruct (IOCountersWithContext_measured api names m err closed Hret
              path stat Hpath) as (h & before & dp & Hopen & Hio & ->).
  exists h, before, dp. cbn [mkIOCountersStat IOReadTime IOWriteTime].
  repeat split; try done.
  - apply ticks_nonneg.
  - apply ticks_nonneg.
  - by intros ->.
  - by intros ->.
Qed.

Lemma busy_time_conversion_witness :
  ∃ h before dp,
    CreateFile oneBusyDrive ("\\.\" +:+ "C:") = (h, None)
    ∧ DeviceIoControl oneBusyDrive h before = (dp, None)
    ∧ 1 = uint64 (div (div (ReadTime dp) 10000) 1000)
    ∧ 1 = uint64 (div (div (WriteTime dp) 10000) 1000)
    ∧ (0 ≤ ReadTime dp < 2 ^ 63 → 1 = ReadTime dp / 10000000)
    ∧ (0 ≤ WriteTime dp < 2 ^ 63 → 1 = WriteTime dp / 10000000)
    ∧ (ReadTime dp = 10000000 → 1 = 1)
    ∧ (WriteTime dp = 10000000 → 1 = 1).
Proof.
  apply (busy_time_conversion oneBusyDrive []
           (drivemapOf (IOCountersWithContext oneBusyDrive [])) None [7] "C:"
           (mkIOCountersStat "C:" tenMillionTicks)).
  - vm_compute. reflexivity.
  - vm_compute. reflexivity.
Defined.

(** C2. The conversion divides by 10_000 and then by 1_000, as stated, and
    line 294 announces milliseconds; but for the fixed drive C: whose busy
    times are 10,000,000 ticks of 100 ns, which the first division turns
    into 1000 ms, [IOCountersWithContext] files 1 in both time fields:
    the second division makes seconds of the milliseconds. *)
Theorem ten_million_ticks_give_one :
  drivemapOf (IOCountersWithContext oneBusyDrive []) !! "C:"
  = Some (mkIOCountersStat "C:" tenMillionTicks)
  ∧ ReadTime tenMillionTicks = 10000000
  ∧ WriteTime tenMillionTicks = 10000000
  ∧ div (ReadTime tenMillionTicks) 10000 = 1000
  ∧ div (WriteTime tenMillionTicks) 10000 = 1000
  ∧ IOReadTime (mkIOCountersStat "C:" tenMillionTicks) = 1
  ∧ IOWriteTime (mkIOCountersStat "C:" tenMillionTicks) = 1.
Proof.
  split; [vm_compute; reflexivity|]. repeat split.
Qed.

(** C9. The result of [IOCountersWithContext] does not depend on [names]:
    for the same answers of the system any two lists of names, the empty
    one included, give the same map, the same error and the same closed
    handles (or the same panic). *)
Theorem names_never_consulted (api : DeviceAPI) (names names' : list string) :
  IOCountersWithContext api names = IOCountersWithContext api names'
  ∧ IOCountersWithContext api names = IOCountersWithContext api [].
Proof. by split. Qed.


(** * Further properties *)

Import layout.

(** ** split0 *)

Lemma segments_snoc cur s v :
  segments cur (s ++ [v])
  = if v =? 0 then segments cur s ++ [pending cur s] else segments cur s.
Proof.
  revert cur. induction s as [|w t IH]; intros cur; cbn.
  - by destruct (v =? 0).
  - destruct (w =? 0); rewrite IH; by destruct (v =? 0).
Qed.

Lemma pending_snoc cur s v :
  pending cur (s ++ [v]) = if v =? 0 then [] else pending cur s ++ [v].
Proof.
  revert cur. induction s as [|w t IH]; intros cur; cbn.
  - by destruct (v =? 0).
  - by destruct (w =? 0); rewrite IH.
Qed.

Lemma pending_nonzero cur s :
  Forall (λ v, v ≠ 0) cur → Forall (λ v, v ≠ 0) (pending cur s).
Proof.
  revert cur. induction s as [|w t IH]; intros cur Hcur; cbn; [done|].
  destruct (Z.eqb_spec w 0); apply IH; [constructor|].
  apply Forall_app. split; [done|]. by constructor.
Qed.

Lemma fields_snoc s v :
  fields (s ++ [v])
  = if v =? 0 then
      fields s ++ (if decide (pending [] s = []) then [] else [pending [] s])
    else fields s.
Proof.
  unfold fields. rewrite segments_snoc. destruct (v =? 0); [|done].
  rewrite filter_app. f_equal.
  rewrite filter_cons, filter_nil.
  destruct (decide (pending [] s = [])), (decide (pending [] s ≠ [])); done.
Qed.

(** What the loop of [split0] holds after [i] turns: [from] is where the
    open field starts, and [ss] are the closed fields so far. *)
Lemma split0_loop s16 i :
  (i ≤ length s16)%nat →
  let st := foldl (split0_step s16) (0%nat, []) (seq 0 i) in
  (st.1 ≤ i)%nat
  ∧ pending [] (take i s16) = take (i - st.1) (drop st.1 s16)
  ∧ st.2 = stringOfUTF16 <$> fields (take i s16).
Proof.
  induction i as [|i IH]; intros Hi; [done|].
  destruct IH as (Hfrom & Hpend & Hss); [lia|].
  rewrite seq_S, foldl_app. cbn [foldl plus].
  destruct (foldl (split0_step s16) (0%nat, []) (seq 0 i)) as [from ss].
  cbn [fst snd] in *.
  destruct (lookup_lt_is_Some_2 s16 i) as [v Hv]; [lia|].
  rewrite (take_S_r _ _ _ Hv), pending_snoc, fields_snoc.
  unfold split0_step. rewrite Hv.
  pose proof (pending_nonzero [] (take i s16) (Forall_nil_2 _)) as Hnz.
  assert (length (pending [] (take i s16)) = (i - from)%nat) as Hlen.
  { rewrite Hpend, length_take, length_drop. lia. }
  destruct (Z.eqb_spec v 0) as [->|Hne]; cbn [fst snd].
  - split; [lia|]. split; [by rewrite Nat.sub_diag|].
    destruct (Nat.ltb_spec from i) as [Hlt|Hge].
    + destruct (pending [] (take i s16)) as [|w pend] eqn:Hp;
        [cbn in Hlen; lia|].
      assert (s16 !! from = Some w) as Hw.
      { assert (take (i - from) (drop from s16) !! 0%nat = Some w) as H0
          by by rewrite <-Hpend.
        rewrite lookup_take_lt, lookup_drop, Nat.add_0_r in H0 by lia. done. }
      rewrite Hw. change (default 0 (Some w)) with w.
      apply Forall_cons_1 in Hnz as [Hw0 _].
      destruct (Z.eqb_spec w 0); [done|]. cbn [negb andb].
      destruct (decide (w :: pend = [])); [done|].
      by rewrite fmap_app, Hss, Hpend.
    + cbn [andb].
      destruct (pending [] (take i s16)); [|cbn in Hlen; lia].
      rewrite decide_True by done. by rewrite app_nil_r.
  - split; [lia|]. split; [|done].
    rewrite Hpend. replace (S i - from)%nat with (S (i - from)) by lia.
    symmetry. apply take_S_r. rewrite lookup_drop.
    by replace (from + (i - from))%nat with i by lia.
Qed.

(** X1. [split0] returns, in order, the decoded fields among the first
    [end] units that hold at least one unit and are closed by a NUL.
    Units after the last NUL and empty fields give nothing; an [end]
    beyond the buffer means the whole buffer and an [end] that is not
    positive means none of it. *)
Theorem split0_fields (s16 : list Z) (end_ : Z) :
  split0 s16 end_ = stringOfUTF16 <$> fields (take (Z.to_nat end_) s16).
Proof.
  unfold split0.
  destruct (Z.ltb_spec (Z.of_nat (length s16)) end_) as [Hlt|Hge].
  - rewrite Nat2Z.id.
    destruct (split0_loop s16 (length s16)) as (_ & _ & ->); [done|].
    rewrite !take_ge by lia. done.
  - destruct (split0_loop s16 (Z.to_nat end_)) as (_ & _ & ->); [lia|done].
Qed.

Lemma segments_field cur seg t :
  Forall (λ v, v ≠ 0) seg →
  segments cur (seg ++ 0 :: t) = (cur ++ seg) :: segments [] t
  ∧ pending cur (seg ++ 0 :: t) = pending [] t.
Proof.
  intros Hseg. revert cur.
  induction Hseg as [|v seg Hv _ IH]; intros cur; cbn.
  - by rewrite app_nil_r.
  - destruct (Z.eqb_spec v 0); [done|].
    destruct (IH (cur ++ [v])) as [-> ->]. by rewrite <-app_assoc.
Qed.

Lemma segments_multiString segs t :
  Forall field segs →
  segments [] (multiString segs ++ t) = segs ++ segments [] t
  ∧ pending [] (multiString segs ++ t) = pending [] t.
Proof.
  induction 1 as [|seg segs [_ Hseg] _ [IHs IHp]]; [done|].
  unfold multiString in *. cbn [mbind list_bind].
  rewrite <-!app_assoc. cbn [app].
  destruct (segments_field [] seg ((segs ≫= λ seg, seg ++ [0]) ++ t) Hseg)
    as [-> ->].
  by rewrite IHs, IHp.
Qed.

Lemma fields_multiString segs :
  Forall field segs → fields (multiString segs) = segs.
Proof.
  intros Hsegs. unfold fields.
  destruct (segments_multiString segs [] Hsegs) as [Hs _].
  rewrite app_nil_r in Hs. rewrite Hs. cbn [segments]. rewrite app_nil_r.
  clear Hs. induction Hsegs as [|seg segs [Hne _] _ IH]; [done|].
  rewrite filter_cons, decide_True by done. by rewrite IH.
Qed.

(** X2. Round trip of [split0]: on a buffer that starts with fields
    written one after the other, each closed by a NUL, and an [end] that
    covers exactly those fields, or those fields and the NUL that closes
    the list, [split0] gives the fields back, decoded and in order,
    whatever else the buffer holds. *)
Theorem split0_multiString (segs : list (list Z)) (rest : list Z) :
  Forall field segs →
  split0 (multiString segs ++ rest) (Z.of_nat (length (multiString segs)))
  = stringOfUTF16 <$> segs
  ∧ split0 (multiString segs ++ 0 :: rest)
      (Z.of_nat (length (multiString segs)) + 1)
    = stringOfUTF16 <$> segs.
Proof.
  intros Hsegs. rewrite !split0_fields. split.
  - rewrite Nat2Z.id, take_app_length. by rewrite fields_multiString.
  - replace (Z.to_nat (Z.of_nat (length (multiString segs)) + 1))
      with (length (multiString segs ++ [0]))
      by (rewrite length_app; cbn; lia).
    rewrite (cons_middle 0 (multiString segs) rest),
      (app_assoc (multiString segs) [0] rest), take_app_length, fields_snoc.
    cbn [Z.eqb].
    destruct (segments_multiString segs [] Hsegs) as [_ Hp].
    rewrite app_nil_r in Hp. rewrite Hp. cbn [pending].
    rewrite decide_True by done.
    by rewrite app_nil_r, fields_multiString.
Qed.

Lemma split0_multiString_witness :
  split0 (multiString [[67; 58; 92]; [68; 58; 92; 109]] ++ [0; 7; 7])
    (Z.of_nat (length (multiString [[67; 58; 92]; [68; 58; 92; 109]])) + 1)
  = stringOfUTF16 <$> [[67; 58; 92]; [68; 58; 92; 109]].
Proof.
  refine (proj2 (split0_multiString [[67; 58; 92]; [68; 58; 92; 109]]
                   [7; 7] _)).
  repeat constructor; discriminate.
Defined.

Lemma buffer_take n written :
  (length written ≤ Z.to_nat n)%nat →
  take (length written) (buffer n written) = written.
Proof.
  intros Hlen. unfold buffer.
  rewrite take_take, Nat.min_l by done. apply take_app_length.
Qed.

(** X3. [getVolumePaths] on a call that succeeds: when the system wrote
    the mount paths as fields followed by the closing NUL, the whole fits
    the 261 units of the buffer and [returnLen] is its length, the result
    is the decoded paths, in order, and a [nil] error. *)
Theorem getVolumePaths_round_trip (os : Kernel32) (volNameBuf : list Z)
    (result : Z) (err : option error) (segs : list (list Z)) :
  GetVolumePathNamesForVolumeNameW os volNameBuf
  = (result, err, multiString segs ++ [0],
     Z.of_nat (length (multiString segs)) + 1) →
  notNil err && (result =? 0) = false →
  Forall field segs →
  Z.of_nat (length (multiString segs)) + 1 ≤ volumePathBufferLength →
  getVolumePaths os volNameBuf = (stringOfUTF16 <$> segs, None).
Proof.
  intros Hcall Hok Hsegs Hfit. unfold getVolumePaths. rewrite Hcall, Hok.
  f_equal. rewrite split0_fields.
  replace (Z.to_nat (Z.of_nat (length (multiString segs)) + 1))
    with (length (multiString segs ++ [0]))
    by (rewrite length_app; cbn; lia).
  rewrite buffer_take by (rewrite length_app; cbn; lia).
  rewrite fields_snoc. cbn [Z.eqb].
  destruct (segments_multiString segs [] Hsegs) as [_ Hp].
  rewrite app_nil_r in Hp. rewrite Hp. cbn [pending].
  rewrite decide_True by done. by rewrite app_nil_r, fields_multiString.
Qed.

Lemma getVolumePaths_round_trip_witness :
  getVolumePaths threeVolumes (nameBuf "V3")
  = (stringOfUTF16 <$> [units "E:\"; units "C:\mnt\e\\"], None).
Proof.
  apply (getVolumePaths_round_trip threeVolumes (nameBuf "V3") 1 success
           [units "E:\"; units "C:\mnt\e\\"]).
  - reflexivity.
  - reflexivity.
  - vm_compute. repeat first [constructor | intros H; discriminate H].
  - vm_compute. intros H. discriminate H.
Defined.

(** ** The stream of a run that is not cancelled *)

Import stream.

Section Stream.
Context (os : Kernel32).

Lemma volumeBody_stream volNameBuf st :
  sent (volumeBody os None volNameBuf st).1
  = sent st ++ volumeRecords os volNameBuf
  ∧ List (warnings (volumeBody os None volNameBuf st).1)
    = List (warnings st) ++ volumeWarnings os volNameBuf.
Proof.
  unfold volumeBody, volumeRecords, volumeWarnings.
  destruct (getVolumePaths os volNameBuf) as [volPaths [e|]]; cbn [notNil].
  { destruct volPaths; cbn; by rewrite app_nil_r. }
  destruct volPaths as [|first rest].
  { cbn. by rewrite !app_nil_r. }
  destruct (Z.eqb_spec (GetDriveTypeW os first) windows.DRIVE_UNKNOWN)
    as [Hu|Hu].
  { rewrite Hu. cbn. by rewrite app_nil_r. }
  destruct (admitted (GetDriveTypeW os first)) eqn:Ha.
  - by destruct (rangeVolPaths_uncancelled os _ (first :: rest)
                   (logCall (CallGetDriveType first)
                      (logCall (CallGetVolumePathNames volNameBuf) st)) Ha)
      as (_ & -> & -> & _).
  - rewrite rangeVolPaths_not_admitted by done. cbn. by rewrite !app_nil_r.
Qed.

Lemma nextVolumes_stream handle answers st :
  sent (nextVolumes os None handle answers st).1
  = sent st ++ (beforeExhaustion answers ≫= answerRecords os)
  ∧ List (warnings (nextVolumes os None handle answers st).1)
    = List (warnings st) ++ (beforeExhaustion answers ≫= answerWarnings os).
Proof.
  revert st. induction answers as [|[[volRet err] buf] rest IH]; intros st.
  { cbn. by rewrite !app_nil_r. }
  cbn [nextVolumes beforeExhaustion]. unfold exhausted. cbn [advanceFailed].
  destruct (notNil err && (volRet =? 0)) eqn:F; cbn [andb].
  - destruct (isErrno err _).
    + cbn. by rewrite !app_nil_r.
    + rewrite !bind_cons. unfold answerRecords at 1, answerWarnings at 1.
      cbn [advanceFailed fst snd]. rewrite F.
      destruct (IH (addWarning (Some (Wrap "failed to find next volume" err))
                      (logCall (CallFindNextVolume handle) st))) as [-> ->].
      cbn [addWarning Warnings_Add logCall sent warnings List app].
      by rewrite <-!app_assoc.
  - rewrite !bind_cons. unfold answerRecords at 1, answerWarnings at 1.
    cbn [advanceFailed fst snd]. rewrite F.
    set (st1 := logCall (CallFindNextVolume handle) st).
    pose proof (volumeBody_uncancelled os
                  (buffer volumeNameBufferLength buf) st1) as Hgo.
    destruct (volumeBody_stream (buffer volumeNameBufferLength buf) st1)
      as [Hs Hw].
    destruct (volumeBody os None _ st1) as [st2 returned].
    cbn [fst snd] in *. subst returned.
    destruct (IH st2) as [-> ->]. rewrite Hs, Hw.
    by rewrite <-!app_assoc.
Qed.

Lemma getPartitions_stream :
  firstHandle os ≠ windows.InvalidHandle →
  sent (final (getPartitions os None))
  = volumeRecords os (firstName os)
    ++ (beforeExhaustion (FindNextVolumeW os) ≫= answerRecords os)
  ∧ List (warnings (final (getPartitions os None)))
    = volumeWarnings os (firstName os)
      ++ (beforeExhaustion (FindNextVolumeW os) ≫= answerWarnings os)
  ∧ Verbose (warnings (final (getPartitions os None))) = true.
Proof.
  intros Hh. destruct (getPartitions_opened os None Hh) as (_ & _ & Hf).
  cbn zeta in Hf.
  assert (sent (final (getPartitions os None))
          = sent (volumeLoop os None (firstHandle os) (firstName os)
                    (logCall CallFindFirstVolume initState)).1
          ∧ warnings (final (getPartitions os None))
            = warnings (volumeLoop os None (firstHandle os) (firstName os)
                          (logCall CallFindFirstVolume initState)).1)
    as [-> ->].
  { rewrite Hf. by destruct (volumeLoop os None _ _ _).2. }
  pose proof (volumeLoop_extends os None (firstHandle os) (firstName os)
                (logCall CallFindFirstVolume initState)) as [Hv _ _ _].
  unfold volumeLoop in *.
  set (st0 := logCall CallFindFirstVolume initState) in *.
  pose proof (volumeBody_uncancelled os (firstName os) st0) as Hgo.
  destruct (volumeBody_stream (firstName os) st0) as [Hs Hw].
  destruct (volumeBody os None (firstName os) st0) as [st1 returned].
  cbn [fst snd] in *. subst returned.
  destruct (nextVolumes_stream (firstHandle os) (FindNextVolumeW os) st1)
    as [-> ->].
  rewrite Hs, Hw. by rewrite Hv.
Qed.

End Stream.

(** X4. A run over a cursor that reports exhaustion, with a valid handle
    and no cancellation, returns exactly these records, in this order:
    for the first volume and then for each answer of the cursor before the
    exhaustion signal that is not a failed advance, the records of those
    mount paths of the volume whose information lookup succeeds, provided
    the paths of the volume resolve and the drive type of the first one is
    admitted. The error is the reference to exactly the warnings these
    volumes and the failed advances give, [nil] when there is none. *)
Theorem uncancelled_run_result (os : Kernel32) (ctx : Context) (all : bool) :
  firstHandle os ≠ windows.InvalidHandle →
  Exists (λ a, exhausted a = true) (FindNextVolumeW os) →
  doneAfter ctx = None →
  PartitionsWithContext os ctx all
  = Some (volumeRecords os (firstName os)
          ++ (beforeExhaustion (FindNextVolumeW os) ≫= answerRecords os),
          Warnings_Reference
            {| List := volumeWarnings os (firstName os)
                       ++ (beforeExhaustion (FindNextVolumeW os)
                           ≫= answerWarnings os);
               Verbose := true |}).
Proof.
  intros Hh Hex Hd. unfold PartitionsWithContext, retChan. rewrite Hd.
  destruct (getPartitions_opened os None Hh) as (He & Hs & _).
  cbn zeta in Hs. rewrite Hs, volumeLoop_exits by done.
  rewrite consume_closed, He. cbn [notNil app].
  destruct (getPartitions_stream os Hh) as (-> & Hw & Hv).
  f_equal. f_equal. unfold Warnings_Reference. cbn [List Verbose].
  by rewrite Hw, Hv.
Qed.

Lemma uncancelled_run_result_witness :
  PartitionsWithContext threeVolumes background false
  = Some (volumeRecords threeVolumes (firstName threeVolumes)
          ++ (beforeExhaustion (FindNextVolumeW threeVolumes)
              ≫= answerRecords threeVolumes),
          Warnings_Reference
            {| List := volumeWarnings threeVolumes (firstName threeVolumes)
                       ++ (beforeExhaustion (FindNextVolumeW threeVolumes)
                           ≫= answerWarnings threeVolumes);
               Verbose := true |}).
Proof.
  apply (uncancelled_run_result threeVolumes background false).
  - vm_compute. discriminate.
  - do 2 apply Exists_cons_tl. by apply Exists_cons_hd.
  - reflexivity.
Defined.

(** ** Every way the consumer returns *)

Section Returns.
Context (ctx : Context) (p : Producer).

(** The consumer in front of a producer that finishes. *)
Lemma consume_exited done rs tail ret :
  consume ctx p done ((Recv <$> rs) ++ Closed :: tail) ret
  = Some (ret ++ match done with Some k => take k rs | None => rs end,
          if match done with
             | Some k => (k <=? length rs)%nat
             | None => false
             end
          then Some (CtxErr (ctxErr ctx))
          else if notNil (errFirstVol p) then errFirstVol p
               else Warnings_Reference (warnings (final p))).
Proof.
  revert done ret. induction rs as [|r rs IH]; intros done ret.
  - destruct done as [[|k]|]; cbn; rewrite app_nil_r;
      by destruct (notNil (errFirstVol p)).
  - destruct done as [[|k]|]; cbn.
    + by rewrite app_nil_r.
    + by rewrite IH, <-app_assoc.
    + by rewrite IH, <-app_assoc.
Qed.

(** The consumer in front of a producer that never finishes returns only
    through [ctx.Done()]. *)
Lemma consume_pending done rs ret recs err :
  consume ctx p done (Recv <$> rs) ret = Some (recs, err) →
  err = Some (CtxErr (ctxErr ctx)).
Proof.
  revert done ret. induction rs as [|r rs IH]; intros done ret.
  - destruct done as [[|k]|]; cbn; [|done..]. by intros [= _ <-].
  - destruct done as [[|k]|]; cbn; [by intros [= _ <-]|apply IH..].
Qed.

End Returns.

Lemma getPartitions_exits (os : Kernel32) (quit : option nat) :
  Exists (λ a, exhausted a = true) (FindNextVolumeW os) →
  status (getPartitions os quit) = Exited.
Proof.
  intros Hex.
  destruct (decide (firstHandle os = windows.InvalidHandle)) as [Hh|Hh].
  - by rewrite getPartitions_failed.
  - destruct (getPartitions_opened os quit Hh) as (_ & -> & _).
    by apply volumeLoop_exits.
Qed.

(** X5. When the cursor reports exhaustion at some point,
    [PartitionsWithContext] returns under every schedule of the context,
    and the records it returns are the first [k] records of the stream of
    the run that is not cancelled, where [k] is the number of records
    after which the context is done (all of the stream when there are
    fewer, or when the context is never done). *)
Theorem returns_prefix_of_stream (os : Kernel32) (ctx : Context)
    (all : bool) :
  Exists (λ a, exhausted a = true) (FindNextVolumeW os) →
  ∃ err,
    PartitionsWithContext os ctx all
    = Some (match doneAfter ctx with
            | Some k => take k (sent (final (getPartitions os None)))
            | None => sent (final (getPartitions os None))
            end, err).
Proof.
  intros Hex. unfold PartitionsWithContext, retChan.
  rewrite (getPartitions_exits os (doneAfter ctx) Hex), consume_exited.
  eexists. f_equal. f_equal. cbn [app].
  destruct (doneAfter ctx) as [k|]; [|done].
  by rewrite getPartitions_cancel_sent, take_take, Nat.min_id.
Qed.

Lemma returns_prefix_of_stream_witness :
  ∃ err,
    PartitionsWithContext threeVolumes (cancelledAfter 7) false
    = Some (take 7 (sent (final (getPartitions threeVolumes None))), err).
Proof.
  apply (returns_prefix_of_stream threeVolumes (cancelledAfter 7) false).
  do 2 apply Exists_cons_tl. by apply Exists_cons_hd.
Defined.

(** X6. A [nil] error means a complete result: the cursor was opened, the
    producer ran to the exhaustion signal without being cut short, no
    warning was recorded on the way, and the records returned are the
    whole stream. *)
Theorem nil_error_means_complete (os : Kernel32) (ctx : Context)
    (all : bool) (recs : list PartitionStat) :
  PartitionsWithContext os ctx all = Some (recs, None) →
  firstHandle os ≠ windows.InvalidHandle
  ∧ status (getPartitions os None) = Exited
  ∧ List (warnings (final (getPartitions os None))) = []
  ∧ recs = sent (final (getPartitions os None)).
Proof.
  unfold PartitionsWithContext, retChan. intros Hret.
  assert (getPartitions os (doneAfter ctx) = getPartitions os None
          ∧ match doneAfter ctx with
            | Some k =>
                (length (sent (final (getPartitions os None))) ≤ k)%nat
            | None => True
            end) as [Hsame Hlen].
  { destruct (doneAfter ctx) as [k|] eqn:Hd; [|done].
    destruct (getPartitions_cancel os k) as [?|[Hexit (Hk & _ & _)]]; [done|].
    exfalso. rewrite Hexit in Hret.
    pose proof (consume_cancelled ctx (getPartitions os (Some k))
                  (sent (final (getPartitions os (Some k)))) [Closed] [])
      as Hc.
    rewrite Hk in Hc. by rewrite Hc in Hret. }
  rewrite Hsame in Hret.
  destruct (status (getPartitions os None)) eqn:Hs.
  2:{ rewrite app_nil_r in Hret. by apply consume_pending in Hret. }
  rewrite consume_exited in Hret. cbn [app] in Hret.
  injection Hret as Hrecs Herr.
  destruct (match doneAfter ctx with
            | Some k =>
                (k <=? length (sent (final (getPartitions os None))))%nat
            | None => false
            end) eqn:Hcut; [done|].
  destruct (errFirstVol (getPartitions os None)) eqn:He; [done|].
  cbn [notNil] in Herr.
  split; [|split; [done|split]].
  - intros Hh. rewrite (getPartitions_failed os None Hh) in He. done.
  - unfold Warnings_Reference in Herr. by destruct (List _).
  - rewrite <-Hrecs. destruct (doneAfter ctx) as [k|]; [|done].
    apply Nat.leb_gt in Hcut. rewrite take_ge; [done|lia].
Qed.

Lemma nil_error_means_complete_witness :
  firstHandle cases.removableOnly ≠ windows.InvalidHandle
  ∧ status (getPartitions cases.removableOnly None) = Exited
  ∧ List (warnings (final (getPartitions cases.removableOnly None))) = []
  ∧ [ {| Device := "C:\mnt\e"; Mountpoint := "C:\mnt\e";
         Fstype := "FAT32"; Opts := ["rw"] |} ]
    = sent (final (getPartitions cases.removableOnly None)).
Proof.
  apply (nil_error_means_complete cases.removableOnly background false).
  reflexivity.
Defined.

(** ** Drive types that are passed over *)

(** X7. A volume whose first mount path has a drive type that is neither
    unknown nor one of the four admitted types, DRIVE_NO_ROOT_DIR and
    DRIVE_RAMDISK among them, is passed over in silence: after the paths
    and the drive type were asked for, no information lookup is made, no
    record is sent and no warning is added, under every schedule. *)
Theorem other_drive_types_passed_over (os : Kernel32) (quit : option nat)
    (volNameBuf : list Z) (st : State) (first : string) (rest : list string) :
  getVolumePaths os volNameBuf = (first :: rest, None) →
  passedOver (GetDriveTypeW os first) = true →
  volumeBody os quit volNameBuf st
  = (logCall (CallGetDriveType first)
       (logCall (CallGetVolumePathNames volNameBuf) st), false)
  ∧ passedOver windows.DRIVE_NO_ROOT_DIR = true
  ∧ passedOver windows.DRIVE_RAMDISK = true.
Proof.
  intros Hpaths Hpass. unfold passedOver in Hpass.
  apply andb_prop in Hpass as [Hu Ha].
  apply negb_true_iff in Hu. apply negb_true_iff in Ha.
  split; [|done].
  unfold volumeBody. rewrite Hpaths, Hu. cbn [notNil].
  by apply rangeVolPaths_not_admitted.
Qed.

Lemma other_drive_types_passed_over_witness :
  volumeBody cases.ramDiskOnly None (nameBuf "V9") initState
  = (logCall (CallGetDriveType "R:\")
       (logCall (CallGetVolumePathNames (nameBuf "V9")) initState), false).
Proof.
  refine (proj1 (other_drive_types_passed_over cases.ramDiskOnly None
                   (nameBuf "V9") initState "R:\" [] _ _)); reflexivity.
Defined.

(** ** Mount points *)

Lemma dropWhileEq_spec c l :
  ∃ n, l = replicate n c ++ dropWhileEq c l
       ∧ head (dropWhileEq c l) ≠ Some c.
Proof.
  induction l as [|x l (n & Hl & Hh)]; cbn.
  - by exists 0%nat.
  - destruct (decide (x = c)) as [->|Hne].
    + exists (S n). cbn. by rewrite <-Hl.
    + exists 0%nat. split; [done|]. cbn. congruence.
Qed.

Lemma TrimRight_spec s c :
  ∃ n, list_ascii_of_string s
       = list_ascii_of_string (TrimRight s c) ++ replicate n c
       ∧ last (list_ascii_of_string (TrimRight s c)) ≠ Some c.
Proof.
  unfold TrimRight. rewrite list_ascii_of_string_of_list_ascii.
  destruct (dropWhileEq_spec c (reverse (list_ascii_of_string s)))
    as (n & Hl & Hh).
  exists n. split.
  - rewrite <-(reverse_involutive (list_ascii_of_string s)), Hl at 1.
    by rewrite reverse_app, reverse_replicate.
  - by rewrite last_reverse.
Qed.

(** X8. Under every schedule, each record that is sent names a mount
    path whose information lookup succeeded: its device and its mount
    point are equal, they are that path without a run of backslashes at
    its end, and they do not end in a backslash. *)
Theorem mount_point_trimmed (os : Kernel32) (quit : option nat)
    (r : PartitionStat) :
  r ∈ sent (final (getPartitions os quit)) →
  Device r = Mountpoint r
  ∧ last (list_ascii_of_string (Mountpoint r)) ≠ Some "\"%char
  ∧ ∃ volPath n,
      infoRecord os volPath = Some r
      ∧ list_ascii_of_string volPath
        = list_ascii_of_string (Mountpoint r) ++ replicate n "\"%char.
Proof.
  intros Hr.
  pose proof (getPartitions_sent os quit) as Hall.
  rewrite Forall_forall in Hall. destruct (Hall r Hr) as [volPath Hrec].
  destruct (infoRecord_names os volPath r Hrec) as [Hm Hd].
  destruct (TrimRight_spec volPath "\"%char) as (n & Hn & Hlast).
  rewrite Hm, Hd. split; [done|]. split; [done|].
  by exists volPath, n.
Qed.

Lemma mount_point_trimmed_witness :
  "C:\mnt\e" = "C:\mnt\e"
  ∧ last (list_ascii_of_string "C:\mnt\e") ≠ Some "\"%char
  ∧ ∃ volPath n,
      infoRecord threeVolumes volPath
      = Some {| Device := "C:\mnt\e"; Mountpoint := "C:\mnt\e";
                Fstype := "FAT32"; Opts := ["rw"] |}
      ∧ list_ascii_of_string volPath
        = list_ascii_of_string "C:\mnt\e" ++ replicate n "\"%char.
Proof.
  apply (mount_point_trimmed threeVolumes None
           {| Device := "C:\mnt\e"; Mountpoint := "C:\mnt\e";
              Fstype := "FAT32"; Opts := ["rw"] |}).
  vm_compute. apply list_elem_of_further, list_elem_of_here.
Defined.

(** ** Native calls under cancellation *)

Section CancelledCalls.
Context (os : Kernel32).

Lemma extends_calls st st' :
  extends os st st' → calls st `prefix_of` calls st'.
Proof. intros [_ _ (cs & -> & _) _]. by apply prefix_app_r. Qed.

Lemma rangeVolPaths_cancel_calls k driveType volPaths st :
  calls (rangeVolPaths os (Some k) driveType volPaths st).1
  `prefix_of` calls (rangeVolPaths os None driveType volPaths st).1.
Proof.
  revert st. induction volPaths as [|p ps IH]; intros st;
    cbn [rangeVolPaths]; [done|].
  destruct (admitted driveType); [|apply IH].
  destruct (GetVolumeInformationW os p) as [[[driveRet err] fsFlags] buf].
  destruct (notNil err && (driveRet =? 0)).
  { destruct (_ || _); apply IH. }
  cbn [quitSelected]. destruct (_ <=? _)%nat; [|apply IH].
  cbn [fst]. set (st1 := send _ _).
  apply (extends_calls st1), rangeVolPaths_extends.
Qed.

Lemma volumeBody_cancel_calls k volNameBuf st :
  calls (volumeBody os (Some k) volNameBuf st).1
  `prefix_of` calls (volumeBody os None volNameBuf st).1.
Proof.
  unfold volumeBody.
  destruct (getVolumePaths os volNameBuf) as [volPaths err].
  destruct (notNil err); [done|].
  destruct volPaths as [|first rest]; [done|].
  destruct (_ =? windows.DRIVE_UNKNOWN); [done|].
  apply rangeVolPaths_cancel_calls.
Qed.

Lemma nextVolumes_cancel_calls k handle answers st :
  (length (sent st) ≤ k)%nat →
  calls (nextVolumes os (Some k) handle answers st).1
  `prefix_of` calls (nextVolumes os None handle answers st).1.
Proof.
  revert st. induction answers as [|[[volRet err] buf] rest IH]; intros st Hk;
    cbn [nextVolumes]; [done|].
  destruct (notNil err && (volRet =? 0)).
  { destruct (isErrno err _); [done|by apply IH]. }
  set (st1 := logCall (CallFindNextVolume handle) st).
  set (name := buffer volumeNameBufferLength buf).
  pose proof (volumeBody_uncancelled os name st1) as Hgo.
  pose proof (volumeBody_cancel_calls k name st1) as Hpre.
  destruct (volumeBody_cancel os k name st1 Hk) as [[Heq Hlen]|[Hret _]].
  - rewrite Heq. destruct (volumeBody os None name st1) as [st2 returned].
    cbn [fst snd] in *. subst returned. by apply IH.
  - destruct (volumeBody os (Some k) name st1) as [stq returned].
    destruct (volumeBody os None name st1) as [stn returned'].
    cbn [fst snd] in *. subst returned returned'. cbn [fst].
    etrans; [exact Hpre|]. apply (extends_calls stn), nextVolumes_extends.
Qed.

Lemma volumeLoop_cancel_calls k handle volNameBuf st :
  (length (sent st) ≤ k)%nat →
  calls (volumeLoop os (Some k) handle volNameBuf st).1
  `prefix_of` calls (volumeLoop os None handle volNameBuf st).1.
Proof.
  intros Hk. unfold volumeLoop.
  pose proof (volumeBody_uncancelled os volNameBuf st) as Hgo.
  pose proof (volumeBody_cancel_calls k volNameBuf st) as Hpre.
  destruct (volumeBody_cancel os k volNameBuf st Hk) as [[Heq Hlen]|[Hret _]].
  - rewrite Heq. destruct (volumeBody os None volNameBuf st) as [st2 returned].
    cbn [fst snd] in *. subst returned. by apply nextVolumes_cancel_calls.
  - destruct (volumeBody os (Some k) volNameBuf st) as [stq returned].
    destruct (volumeBody os None volNameBuf st) as [stn returned'].
    cbn [fst snd] in *. subst returned returned'. cbn [fst].
    etrans; [exact Hpre|]. apply (extends_calls stn), nextVolumes_extends.
Qed.

End CancelledCalls.

(** X9. Cancellation adds no work: the native calls of a producer whose
    consumer left after [k] records are, up to the closing of the handle
    when it finishes, an initial part of the native calls of the run that
    is not cancelled. *)
Theorem cancelled_calls_are_a_prefix (os : Kernel32) (k : nat) :
  firstHandle os ≠ windows.InvalidHandle →
  ∃ cs,
    calls (final (getPartitions os (Some k)))
    = cs ++ match status (getPartitions os (Some k)) with
            | Exited => [CallFindVolumeClose (firstHandle os)]
            | Pending => []
            end
    ∧ cs `prefix_of` calls (final (getPartitions os None)).
Proof.
  intros Hh.
  destruct (getPartitions_opened os (Some k) Hh) as (_ & Hs & Hf).
  destruct (getPartitions_opened os None Hh) as (_ & _ & Hf').
  cbn zeta in *. rewrite Hf, Hs.
  pose proof (volumeLoop_cancel_calls os k (firstHandle os) (firstName os)
                (logCall CallFindFirstVolume initState)
                ltac:(cbn; lia)) as Hpre.
  set (q := volumeLoop os (Some k) _ _ _) in *.
  set (n := volumeLoop os None _ _ _) in *.
  exists (calls q.1). split.
  - destruct q.2; cbn [logCall calls]; by rewrite ?app_nil_r.
  - etrans; [exact Hpre|]. rewrite Hf'.
    destruct n.2; cbn [logCall calls]; [by apply prefix_app_r|done].
Qed.

Lemma cancelled_calls_are_a_prefix_witness :
  ∃ cs,
    calls (final (getPartitions threeVolumes (Some 1%nat)))
    = cs ++ match status (getPartitions threeVolumes (Some 1%nat)) with
            | Exited => [CallFindVolumeClose (firstHandle threeVolumes)]
            | Pending => []
            end
    ∧ cs `prefix_of` calls (final (getPartitions threeVolumes None)).
Proof.
  apply (cancelled_calls_are_a_prefix threeVolumes 1).
  vm_compute. discriminate.
Defined.

(** ** The loop over the logical drives *)

Section Drives.
Context (api : DeviceAPI).

Lemma rangeDrives_ignored v rest st :
  ignoredUnit api v = true →
  rangeDrives api (v :: rest) st = rangeDrives api rest st.
Proof.
  unfold ignoredUnit, drivePath. cbn [rangeDrives].
  destruct ((65 <=? v) && (v <=? 90)); [|done].
  destruct (GetDriveType api _ =? 0); [done|].
  destruct (negb (GetDriveType api _ =? windows.DRIVE_FIXED)); [done|].
  destruct (CreateFile api _) as [h err].
  destruct (notNil err); [|done]. cbn [andb]. by intros ->.
Qed.

Lemma rangeDrives_app pre rest st :
  rangeDrives api (pre ++ rest) st
  = match rangeDrives api pre st with
    | inl st' => rangeDrives api rest st'
    | inr r => inr r
    end.
Proof.
  revert st. induction pre as [|v pre IH]; intros st; [done|].
  cbn [app rangeDrives].
  destruct ((65 <=? v) && (v <=? 90)); [|apply IH].
  destruct (GetDriveType api _ =? 0); [done|].
  destruct (negb (GetDriveType api _ =? windows.DRIVE_FIXED)); [apply IH|].
  destruct (CreateFile api _) as [h err].
  destruct (notNil err).
  { destruct (isErrno err _); [apply IH|done]. }
  destruct (DeviceIoControl api h _) as [dp err'].
  destruct (notNil err'); [done|apply IH].
Qed.

Lemma listed_more units handles handles' path stat :
  (∀ h, h ∈ handles → h ∈ handles') →
  listed api units handles path stat → listed api units handles' path stat.
Proof.
  intros Hsub (Hname & Hfixed & Hunit & h & Hopen & Hh).
  repeat split; [done..|]. exists h. auto.
Qed.

Lemma rangeDrives_listed units0 units st :
  (∀ v, v ∈ units → v ∈ units0) →
  map_Forall (listed api units0 (deferred st)) (drivemap st) →
  match rangeDrives api units st with
  | inl st' => map_Forall (listed api units0 (deferred st')) (drivemap st')
  | inr (st', _) =>
      map_Forall (listed api units0 (deferred st')) (drivemap st')
  end.
Proof.
  revert st. induction units as [|v rest IH]; intros st Hsub Hst;
    cbn [rangeDrives]; [done|].
  assert (∀ w, w ∈ rest → w ∈ units0) as Hsub'
    by (intros w Hw; apply Hsub; by right).
  destruct (Z.leb_spec 65 v) as [H65|]; cbn [andb]; [|by apply IH].
  destruct (Z.leb_spec v 90) as [H90|]; [|by apply IH].
  fold (drivePath v).
  destruct (GetDriveType api (drivePath v) =? 0); [done|].
  destruct (Z.eqb_spec (GetDriveType api (drivePath v)) windows.DRIVE_FIXED)
    as [Hfixed|]; cbn [negb]; [|by apply IH].
  destruct (CreateFile api ("\\.\" +:+ drivePath v)) as [h err] eqn:Hopen.
  destruct err as [e|]; cbn [notNil].
  { destruct (isErrno (Some e) _); [by apply IH|done]. }
  cbn [perf drivemap deferred].
  assert (map_Forall (listed api units0 (h :: deferred st)) (drivemap st))
    as Hst'.
  { intros path stat Hlook. eapply listed_more; [|by apply Hst].
    intros h' Hh'. by right. }
  destruct (DeviceIoControl api h (perf st)) as [dp err].
  destruct err as [e|]; cbn [notNil]; [done|].
  apply IH; [done|]. cbn [drivemap deferred].
  apply map_Forall_insert_2; [|done].
  repeat split; [done| |].
  - exists v. split; [apply Hsub; by left|done].
  - exists h. split; [done|by left].
Qed.

End Drives.

(** X10. In the loop over [lpBuffer], a unit that is not a capital
    letter, a drive whose type is neither 0 nor DRIVE_FIXED, and a fixed
    drive whose device is not found leave no trace: the loop gives the
    same map, the same handles and the same early return as on the buffer
    without these units. *)
Theorem ignored_units_leave_no_trace (api : DeviceAPI) (units : list Z)
    (st : IOState) :
  rangeDrives api units st
  = rangeDrives api (filter (λ v, ignoredUnit api v = false) units) st.
Proof.
  revert st. induction units as [|v rest IH]; intros st; [done|].
  rewrite filter_cons.
  destruct (ignoredUnit api v) eqn:Hv.
  { rewrite decide_False by done. by rewrite rangeDrives_ignored. }
  rewrite decide_True by done.
  change (v :: rest) with ([v] ++ rest).
  change (v :: filter _ rest) with ([v] ++ filter (λ v, ignoredUnit api v = false) rest).
  rewrite !rangeDrives_app.
  destruct (rangeDrives api [v] st) as [st'|r]; [apply IH|done].
Qed.

(** X11. A drive that fails ends the loop at once. After the units [pre]
    were gone through without a return, a capital letter whose drive type
    is 0 returns the state reached with the value of [GetLastError], which
    may be [nil]; a fixed drive whose device cannot be opened, for another
    reason than not being found, returns the state reached with that
    error; and a fixed drive whose [DeviceIoControl] fails returns that
    error with the map as it was, the handle just opened among those to
    close. The units that follow are not looked at. *)
Theorem drive_failure_returns_at_once (api : DeviceAPI) (pre rest : list Z)
    (v : Z) (st st' : IOState) :
  rangeDrives api pre st = inl st' →
  65 ≤ v ≤ 90 →
  (GetDriveType api (drivePath v) = 0 →
   rangeDrives api (pre ++ v :: rest) st
   = inr (st', DriveTypeLastError api (drivePath v)))
  ∧ (GetDriveType api (drivePath v) = windows.DRIVE_FIXED →
     ∀ h e,
       CreateFile api ("\\.\" +:+ drivePath v) = (h, Some e) →
       isErrno (Some e) windows.ERROR_FILE_NOT_FOUND = false →
       rangeDrives api (pre ++ v :: rest) st = inr (st', Some e))
  ∧ (GetDriveType api (drivePath v) = windows.DRIVE_FIXED →
     ∀ h dp e,
       CreateFile api ("\\.\" +:+ drivePath v) = (h, None) →
       DeviceIoControl api h (perf st') = (dp, Some e) →
       rangeDrives api (pre ++ v :: rest) st
       = inr ({| drivemap := drivemap st'; perf := dp;
                 deferred := h :: deferred st' |}, Some e)).
Proof.
  intros Hpre [H65 H90]. rewrite rangeDrives_app, Hpre.
  cbn [rangeDrives]. fold (drivePath v).
  destruct (Z.leb_spec 65 v); [|lia]. destruct (Z.leb_spec v 90); [|lia].
  cbn [andb]. split; [|split].
  - intros ->. done.
  - intros -> h e Hopen Hnot. cbn. rewrite Hopen. cbn [notNil].
    by rewrite Hnot.
  - intros -> h dp e Hopen Hio. cbn. rewrite Hopen. cbn [notNil].
    cbn [perf]. by rewrite Hio.
Qed.

Lemma drive_failure_returns_at_once_witness :
  rangeDrives cases.secondDriveFails
    ([67; 58; 92; 0] ++ 68 :: [58; 92; 0; 69; 58; 92; 0])
    {| drivemap := ∅; perf := diskPerformance_zero; deferred := [] |}
  = inr ({| drivemap := {[ "C:" := mkIOCountersStat "C:" tenMillionTicks ]};
            perf := diskPerformance_zero; deferred := [8; 7] |},
         Some (Errno 5)).
Proof.
  refine (proj2 (proj2
            (drive_failure_returns_at_once cases.secondDriveFails
               [67; 58; 92; 0] [58; 92; 0; 69; 58; 92; 0] 68
               {| drivemap := ∅; perf := diskPerformance_zero;
                  deferred := [] |}
               {| drivemap :=
                    {[ "C:" := mkIOCountersStat "C:" tenMillionTicks ]};
                  perf := tenMillionTicks; deferred := [7] |} _ _))
            _ 8 diskPerformance_zero (Errno 5) _ _).
  - vm_compute. reflexivity.
  - vm_compute. split; intros H; discriminate H.
  - reflexivity.
  - reflexivity.
  - reflexivity.
Defined.

(** X12. Every entry of the map [IOCountersWithContext] returns, with or
    without an error, is filed under its own name, and that name is the
    capital letter of a drive, followed by a colon, that is among the first
    [lpBufferLen] units of the buffer and whose type is DRIVE_FIXED; the
    handle that was opened for its device is among the handles closed when
    the function returns. *)
Theorem entries_are_fixed_drives (api : DeviceAPI) (names : list string)
    (m : gmap string IOCountersStat) (err : option error) (closed : list Z)
    (path : string) (stat : IOCountersStat) :
  IOCountersWithContext api names = Returned m err closed →
  m !! path = Some stat →
  listed api
    (take (Z.to_nat (GetLogicalDriveStrings api).1.1)
       (buffer 254 (GetLogicalDriveStrings api).2))
    closed path stat.
Proof.
  unfold IOCountersWithContext.
  destruct (GetLogicalDriveStrings api) as [[lpBufferLen e] written].
  cbn [fst snd]. destruct (notNil e).
  { by intros [= <- _ _]. }
  destruct (_ <? lpBufferLen); [done|].
  set (st0 := {| drivemap := ∅; perf := diskPerformance_zero;
                 deferred := [] |}).
  set (units := take (Z.to_nat lpBufferLen) (buffer 254 written)).
  pose proof (rangeDrives_listed api units units st0 (λ v Hv, Hv)
                (map_Forall_empty _)) as Hall.
  destruct (rangeDrives api units st0) as [st|[st e']];
    intros [= <- _ <-] Hlook; by apply Hall.
Qed.

Lemma entries_are_fixed_drives_witness :
  listed oneBusyDrive
    (take (Z.to_nat (GetLogicalDriveStrings oneBusyDrive).1.1)
       (buffer 254 (GetLogicalDriveStrings oneBusyDrive).2))
    [7] "C:" (mkIOCountersStat "C:" tenMillionTicks).
Proof.
  apply (entries_are_fixed_drives oneBusyDrive []
           (drivemapOf (IOCountersWithContext oneBusyDrive [])) None [7] "C:"
           (mkIOCountersStat "C:" tenMillionTicks)).
  - vm_compute. reflexivity.
  - vm_compute. reflexivity.
Defined.

Lemma length_buffer n written :
  length (buffer n written) = Z.to_nat n.
Proof.
  unfold buffer. rewrite length_take, length_app, length_replicate. lia.
Qed.

(** X13. [IOCountersWithContext] panics exactly when
    [GetLogicalDriveStrings] reports no error and a length above the 254
    units of the buffer, which is what it reports when the buffer is too
    small; in every other case it returns. *)
Theorem panics_on_short_buffer (api : DeviceAPI) (names : list string) :
  IOCountersWithContext api names = Panicked
  ↔ (GetLogicalDriveStrings api).1.2 = None
    ∧ 254 < (GetLogicalDriveStrings api).1.1.
Proof.
  unfold IOCountersWithContext.
  destruct (GetLogicalDriveStrings api) as [[lpBufferLen e] written].
  cbn [fst snd]. rewrite length_buffer.
  destruct e as [e|]; cbn [notNil].
  { split; [done|]. by intros [? _]. }
  destruct (Z.ltb_spec (Z.of_nat (Z.to_nat 254)) lpBufferLen) as [Hlt|Hge].
  - split; [|done]. intros _. split; [done|]. lia.
  - split; [|intros [_ ?]; lia].
    by destruct (rangeDrives api _ _) as [st|[st e']].
Qed.


(** ** Disk usage *)

Import usage.

(** X14. [UsageWithContext] on a path without a NUL byte and a call that
    succeeds with byte counts that are not negative: the total and the
    free bytes are those the system wrote, the used bytes are their
    difference modulo 2^64, which is the plain difference when the free
    bytes do not exceed the total and wraps around otherwise; a volume of
    zero bytes has a used percentage that is not a number. *)
Theorem usage_of_nonnegative_counts (api : FreeSpaceAPI) (path : string)
    (diskret : Z) (err : option error) (avail total free : Z) :
  hasNul path = false →
  api path = (diskret, err, avail, total, free) →
  diskret ≠ 0 →
  0 ≤ total < 2 ^ 63 →
  0 ≤ free < 2 ^ 63 →
  ∃ stat,
    UsageWithContext api path = UsageReturned (Some stat) None
    ∧ Path stat = path ∧ Total stat = total ∧ Free stat = free
    ∧ Used stat = (total - free) mod 2 ^ 64
    ∧ (free ≤ total →
       Used stat = total - free ∧ Used stat + Free stat = Total stat)
    ∧ (total < free → Used stat = 2 ^ 64 - (free - total))
    ∧ (total = 0 → free = 0 → PrimFloat.is_nan (UsedPercent stat) = true).
Proof.
  intros Hnul Hcall Hret Ht Hf. unfold UsageWithContext.
  rewrite Hnul, Hcall. destruct (Z.eqb_spec diskret 0); [done|].
  eexists. split; [reflexivity|]. cbn [Path Total Free Used UsedPercent].
  unfold uint64. rewrite !(Z.mod_small total), !(Z.mod_small free) by lia.
  do 4 (split; [done|]). split; [|split].
  - intros Hle. rewrite Z.mod_small by lia. lia.
  - intros Hlt.
    rewrite <-(Z.mod_add _ 1) by lia. rewrite Z.mod_small by lia. lia.
  - by intros -> ->.
Qed.

Lemma usage_of_nonnegative_counts_witness :
  ∃ stat,
    UsageWithContext cases.quarterFree "C:" = UsageReturned (Some stat) None
    ∧ Path stat = "C:" ∧ Total stat = 100 ∧ Free stat = 25
    ∧ Used stat = (100 - 25) mod 2 ^ 64
    ∧ (25 ≤ 100 → Used stat = 100 - 25 ∧ Used stat + Free stat = Total stat)
    ∧ (100 < 25 → Used stat = 2 ^ 64 - (25 - 100))
    ∧ (100 = 0 → 25 = 0 → PrimFloat.is_nan (UsedPercent stat) = true).
Proof.
  apply (usage_of_nonnegative_counts cases.quarterFree "C:" 1 success
           20 100 25).
  - reflexivity.
  - reflexivity.
  - discriminate.
  - vm_compute. split; [intros H; discriminate H|reflexivity].
  - vm_compute. split; [intros H; discriminate H|reflexivity].
Defined.

(** ** Counters *)

(** X15. The byte and operation counts of an entry are the raw counters
    of the [DeviceIoControl] answer for its device, unchanged when the raw
    counter is not negative; a negative raw byte count (the field is a
    signed 64-bit integer) shows as that count plus 2^64. *)
Theorem counts_pass_through (api : DeviceAPI) (names : list string)
    (m : gmap string IOCountersStat) (err : option error) (closed : list Z)
    (path : string) (stat : IOCountersStat) :
  IOCountersWithContext api names = Returned m err closed →
  m !! path = Some stat →
  ∃ h before dp,
    CreateFile api ("\\.\" +:+ path) = (h, None)
    ∧ DeviceIoControl api h before = (dp, None)
    ∧ (0 ≤ BytesRead dp < 2 ^ 63 → ReadBytes stat = BytesRead dp)
    ∧ (0 ≤ BytesWritten dp < 2 ^ 63 → WriteBytes stat = BytesWritten dp)
    ∧ (0 ≤ ReadCount dp < 2 ^ 32 → IOReadCount stat = ReadCount dp)
    ∧ (0 ≤ WriteCount dp < 2 ^ 32 → IOWriteCount stat = WriteCount dp)
    ∧ (- 2 ^ 63 ≤ BytesRead dp < 0 →
       ReadBytes stat = BytesRead dp + 2 ^ 64)
    ∧ (- 2 ^ 63 ≤ BytesWritten dp < 0 →
       WriteBytes stat = BytesWritten dp + 2 ^ 64).
Proof.
  intros Hret Hpath.
  destruct (IOCountersWithContext_measured api names m err closed Hret
              path stat Hpath) as (h & before & dp & Hopen & Hio & ->).
  exists h, before, dp.
  cbn [mkIOCountersStat ReadBytes WriteBytes IOReadCount IOWriteCount].
  unfold uint64.
  do 2 (split; [done|]).
  do 4 (split; [intros ?; apply Z.mod_small; lia|]).
  split; intros ?; rewrite <-(Z.mod_add _ 1) by lia;
    apply Z.mod_small; lia.
Qed.

Lemma counts_pass_through_witness :
  ∃ h before dp,
    CreateFile oneBusyDrive ("\\.\" +:+ "C:") = (h, None)
    ∧ DeviceIoControl oneBusyDrive h before = (dp, None)
    ∧ (0 ≤ BytesRead dp < 2 ^ 63 → 4096 = BytesRead dp)
    ∧ (0 ≤ BytesWritten dp < 2 ^ 63 → 512 = BytesWritten dp)
    ∧ (0 ≤ ReadCount dp < 2 ^ 32 → 3 = ReadCount dp)
    ∧ (0 ≤ WriteCount dp < 2 ^ 32 → 1 = WriteCount dp)
    ∧ (- 2 ^ 63 ≤ BytesRead dp < 0 → 4096 = BytesRead dp + 2 ^ 64)
    ∧ (- 2 ^ 63 ≤ BytesWritten dp < 0 → 512 = BytesWritten dp + 2 ^ 64).
Proof.
  apply (counts_pass_through oneBusyDrive []
           (drivemapOf (IOCountersWithContext oneBusyDrive [])) None [7] "C:"
           (mkIOCountersStat "C:" tenMillionTicks)).
  - vm_compute. reflexivity.
  - vm_compute. reflexivity.
Defined.
